(** * spf-digraph: the SPF include resolver, the tree builder and the tree
      operations of [gen.py], embedded in Rocq.

    The Python objects that the program mutates through aliases live in
    explicit stores: the [visited] sets of [Resolver.__call__] and
    [Tree.each_node] in a store of sets, the [Node] objects in a heap of
    records.  A reference is an index into its store and Python's [None]
    is the [None] of [option].  Generators are modelled by the list of the
    values they yield.  Recursion that Python bounds only by its stack
    takes a [fuel] argument; a result [None] stands for an exhausted fuel
    or for an exception that the code does not catch. *)

From stdpp Require Import gmap strings list sets.
From Stdlib Require Import Ascii.

Set Warnings "-clear-no-such-hyp".

Local Open Scope string_scope.
Local Open Scope list_scope.
Local Open Scope nat_scope.

(** ** Python's string methods used by the resolver *)

Module Str.

(** [c in chars] *)
Fixpoint mem (c : ascii) (chars : string) : bool :=
  match chars with
  | EmptyString => false
  | String a chars' => Ascii.eqb c a || mem c chars'
  end.

(** [s.lstrip(chars)] *)
Fixpoint lstrip (chars : string) (s : string) : string :=
  match s with
  | EmptyString => EmptyString
  | String a s' => if mem a chars then lstrip chars s' else s
  end.

(** [s.rstrip(chars)] *)
Fixpoint rstrip (chars : string) (s : string) : string :=
  match s with
  | EmptyString => EmptyString
  | String a s' =>
      match rstrip chars s' with
      | EmptyString => if mem a chars then EmptyString else String a EmptyString
      | r => String a r
      end
  end.

(** [s.strip(chars)] *)
Definition strip (chars : string) (s : string) : string :=
  rstrip chars (lstrip chars s).

(** The double quote character, code 34. *)
Definition dquote : ascii := Ascii false true false false false true false false.

(** [s.startswith(p)] *)
Fixpoint startswith (p s : string) : bool :=
  match p, s with
  | EmptyString, _ => true
  | String a p', String b s' => Ascii.eqb a b && startswith p' s'
  | String _ _, EmptyString => false
  end.

(** The characters [str.isspace] accepts: space, \t, \n, \v, \f, \r. *)
Definition isspace (a : ascii) : bool :=
  let n := nat_of_ascii a in
  Nat.eqb n 32 || (Nat.leb 9 n && Nat.leb n 13).

(** [s.split()]: the maximal runs of characters that are not white
    space. *)
Fixpoint split (s : string) : list string :=
  match s with
  | EmptyString => []
  | String a s' =>
      if isspace a then split s'
      else
        match s' with
        | EmptyString => [String a EmptyString]
        | String b _ =>
            if isspace b then String a EmptyString :: split s'
            else
              match split s' with
              | w :: ws => String a w :: ws
              | [] => [String a EmptyString]
              end
        end
  end.

(** [s.split(sep)] for a separator of one character: empty fields are
    kept and the result has at least one field. *)
Fixpoint split_on (sep : ascii) (s : string) : list string :=
  match s with
  | EmptyString => [EmptyString]
  | String a s' =>
      if Ascii.eqb a sep then EmptyString :: split_on sep s'
      else
        match split_on sep s' with
        | w :: ws => String a w :: ws
        | [] => [String a EmptyString]
        end
  end.

(** The characters of [s] before the first [sep]. *)
Fixpoint until (sep : ascii) (s : string) : string :=
  match s with
  | EmptyString => EmptyString
  | String a s' => if Ascii.eqb a sep then EmptyString else String a (until sep s')
  end.

(** [s[n:]] *)
Fixpoint drop (n : nat) (s : string) : string :=
  match n, s with
  | S n', String _ s' => drop n' s'
  | _, _ => s
  end.

(** The characters of [s] after the first [sep]. *)
Fixpoint after (sep : ascii) (s : string) : string :=
  match s with
  | EmptyString => EmptyString
  | String a s' => if Ascii.eqb a sep then s' else after sep s'
  end.

End Str.

(** ** [find] *)

(** [find(f, itr, default)]: the first element of [itr] that satisfies
    [f], and [default] when there is none. *)
Fixpoint find {A : Type} (f : A → bool) (itr : list A) (default : A) : A :=
  match itr with
  | [] => default
  | x :: itr' => if f x then x else find f itr' default
  end.

(** ** Stores *)

(** A reference to an object of a store: its index. *)
Abbreviation loc := nat.

(** The store of the [set] objects. *)
Abbreviation sets := (list (gset string)).

(** [set()]: a fresh, empty set. *)
Definition new_set (σ : sets) : loc * sets := (length σ, σ ++ [∅]).

(** ** Events of the resolver *)

Inductive typ := enter | exit.

#[global] Instance typ_eq_dec : EqDecision typ.
Proof. solve_decision. Defined.

Abbreviation event := (typ * string)%type.

(** ** Resolver *)

Module Resolver.

(** A TXT rdata, represented by the text that its [to_text] returns. *)
Definition rdata := string.

(** [Resolver.is_include] *)
Definition is_include (record : string) : bool :=
  Str.startswith "include:" record.

(** [Resolver.to_text] *)
Definition to_text (x : rdata) : string := x.

(** [Resolver.is_spf] *)
Definition is_spf (x : string) : bool :=
  Str.startswith "v=spf1" (Str.strip (String Str.dquote EmptyString) x).

Abbreviation result := (list event * sets)%type.

Section call.

(** [query(domain, "TXT")] of dnspython: the rdatas of the answer, or
    [None] when it raises a [DNSException]. *)
Variable query : string → option (list rdata).

(** The loop [for record in filter(self.is_include, terms)] of
    [Resolver.__call__], where [self] is the recursive call;
    [record.split(':')[1]] raises an [IndexError] when there is no
    second field. *)
Fixpoint includes (self : string → option loc → sets → option result)
    (records : list string) (visited : loc) (σ : sets) : option result :=
  match records with
  | [] => Some ([], σ)
  | record :: records' =>
      name ← Str.split_on ":" record !! 1;
      '(evs, σ) ← self name (Some visited) σ;
      '(evs', σ) ← includes self records' visited σ;
      Some (evs ++ evs', σ)
  end.

(** [Resolver.__call__(domain, visited)]: the events it yields and the
    store of sets it leaves. *)
Fixpoint __call__ (fuel : nat) (domain : string) (visited : option loc)
    (σ : sets) : option result :=
  match fuel with
  | 0 => None
  | S fuel' =>
      (* if not visited: visited = set() *)
      '(visited, σ) ←
        match visited with
        | None => Some (new_set σ)
        | Some v =>
            s ← (σ !! v : option (gset string));
            if decide (s = ∅) then Some (new_set σ) else Some (v, σ)
        end;
      s ← (σ !! visited : option (gset string));
      if decide (domain ∈ s) then Some ([], σ)
      else
        (* visited.add(domain) *)
        let σ := <[visited := {[domain]} ∪ s]> σ in
        '(evs, σ) ←
          match query domain with
          | Some answer =>
              let res := map to_text answer in
              let terms := Str.split (find is_spf res "") in
              includes (__call__ fuel') (filter is_include terms) visited σ
          | None => Some ([], σ)
          end;
        Some ((enter, domain) :: evs ++ [(exit, domain)], σ)
  end.

End call.

End Resolver.

(** ** Node *)

(** A [Node] object.  [children] holds references: a child is shared
    between the list of its parent and the stack of the builder. *)
Record Node := mkNode {
  name : string;
  children_names : gset string;
  children : list loc
}.

(** The heap of the [Node] objects. *)
Abbreviation heap := (list Node).

(** [Node(name)] *)
Definition Node_init (nm : string) (h : heap) : loc * heap :=
  (length h, h ++ [mkNode nm ∅ []]).

(** [x.name == name] for an element [x] of a list of nodes. *)
Definition has_name (h : heap) (nm : string) (x : option loc) : bool :=
  match x ≫= (h !!.) with
  | Some n => bool_decide (name n = nm)
  | None => false
  end.

(** [Node.add_child(name)]: the node returned, or [None] where [find]
    falls back on its default, and the heap left. *)
Definition add_child (self : loc) (nm : string) (h : heap)
    : option (option loc * heap) :=
  n ← h !! self;
  if decide (nm ∉ children_names n) then
    let '(node, h) := Node_init nm h in
    (* self.children.append(node); self.children_names.add(node.name) *)
    Some (Some node,
          <[self := mkNode (name n) ({[nm]} ∪ children_names n)
                      (children n ++ [node])]> h)
  else
    Some (find (has_name h nm) (Some <$> children n) None, h).

(** The dictionary that [Node.to_obj] returns.  [list(children_names)]
    enumerates the set in an order the language does not fix. *)
Record obj := mkObj { obj_name : string; obj_children : list string }.

(** [Node.to_obj] *)
Definition to_obj (n : Node) : obj :=
  mkObj (name n) (elements (children_names n)).

(** ** Tree *)

Record Tree := mkTree { head : option loc }.

Module TreeOps.

(** [if not node: node = self.head].  A [Node] object is always true. *)
Definition or_head (self : Tree) (node : option loc) : option loc :=
  match node with
  | None => head self
  | Some n => Some n
  end.

(** The loop [for n in node.children] of [Tree.bigrams]. *)
Fixpoint bigrams_loop (rec : option loc → option (list (string * string)))
    (h : heap) (node : Node) (ns : list loc)
    : option (list (string * string)) :=
  match ns with
  | [] => Some []
  | n :: ns' =>
      bs ← rec (Some n);
      c ← h !! n;
      bs' ← bigrams_loop rec h node ns';
      Some (bs ++ (name node, name c) :: bs')
  end.

(** [Tree.bigrams(node)] *)
Fixpoint bigrams (fuel : nat) (h : heap) (self : Tree) (node : option loc)
    : option (list (string * string)) :=
  match fuel with
  | 0 => None
  | S fuel' =>
      node ← or_head self node;
      nd ← h !! node;
      if bool_decide (length (children nd) ≠ 0) then
        bigrams_loop (bigrams fuel' h self) h nd (children nd)
      else Some []
  end.

(** The loop [for n in node.children] of [Tree.each_node]. *)
Fixpoint each_node_loop
    (rec : option loc → option loc → sets → option (list loc * sets))
    (visited : loc) (ns : list loc) (σ : sets) : option (list loc * sets) :=
  match ns with
  | [] => Some ([], σ)
  | n :: ns' =>
      '(rs, σ) ← rec (Some visited) (Some n) σ;
      '(rs', σ) ← each_node_loop rec visited ns' σ;
      Some (rs ++ rs', σ)
  end.

(** [Tree.each_node(visited, node)]: the nodes it yields and the store
    of sets it leaves. *)
Fixpoint each_node (fuel : nat) (h : heap) (self : Tree)
    (visited : option loc) (node : option loc) (σ : sets)
    : option (list loc * sets) :=
  match fuel with
  | 0 => None
  | S fuel' =>
      (* if not visited: visited = set() *)
      '(visited, σ) ←
        match visited with
        | None => Some (new_set σ)
        | Some v =>
            s ← (σ !! v : option (gset string));
            if decide (s = ∅) then Some (new_set σ) else Some (v, σ)
        end;
      node ← or_head self node;
      nd ← h !! node;
      s ← (σ !! visited : option (gset string));
      if decide (name nd ∈ s) then Some ([], σ)
      else
        (* visited.add(node.name) *)
        let σ := <[visited := {[name nd]} ∪ s]> σ in
        '(rs, σ) ←
          (if bool_decide (length (children nd) ≠ 0) then
             each_node_loop (each_node fuel' h self) visited (children nd) σ
           else Some ([], σ));
        Some (node :: rs, σ)
  end.

(** [Tree.to_json]: the list handed to [json.dumps]. *)
Definition to_json (fuel : nat) (h : heap) (self : Tree) (σ : sets)
    : option (list obj * sets) :=
  '(ns, σ) ← each_node fuel h self None None σ;
  objs ← mapM (λ n : loc, to_obj <$> h !! n) ns;
  Some (objs, σ).

End TreeOps.

(** ** TreeBuilder *)

Module TreeBuilder.

(** The state of the loop of [build]: the variable [tree], the stack of
    the builder (its head is the top, [self.stack[-1]]) and the heap. *)
Definition state : Type := option Tree * list (option loc) * heap.

(** The body of the loop of [TreeBuilder.build], on the events the
    resolver yields.  Calling [add_child] on [None] raises an
    [AttributeError], popping the empty stack an [IndexError]. *)
Fixpoint consume (evs : list event) (tree : option Tree)
    (stack : list (option loc)) (h : heap) : option state :=
  match evs with
  | [] => Some (tree, stack, h)
  | (enter, nm) :: evs' =>
      '(node, h) ←
        match stack with
        | top :: _ => self ← top; add_child self nm h
        | [] => let '(node, h) := Node_init nm h in Some (Some node, h)
        end;
      consume evs' tree (node :: stack) h
  | (exit, nm) :: evs' =>
      match stack with
      | node :: stack' => consume evs' (Some (mkTree node)) stack' h
      | [] => None
      end
  end.

(** [TreeBuilder.build(domain)], from the stack [self.stack]. *)
Definition build (query : string → option (list Resolver.rdata))
    (fuel : nat) (domain : string) (stack : list (option loc))
    (h : heap) (σ : sets) : option (state * sets) :=
  '(evs, σ) ← Resolver.__call__ query fuel domain None σ;
  st ← consume evs None stack h;
  Some (st, σ).

End TreeBuilder.

(** * The vocabulary of the properties *)

(** ** The [visited] argument *)

(** [if not visited: visited = set()], as [Resolver.__call__] and
    [Tree.each_node] start: the set the traversal works on and the store
    once it is bound.  An empty set is as false as [None]. *)
Definition bind_visited (visited : option loc) (σ : sets)
    : option (loc * sets) :=
  match visited with
  | None => Some (new_set σ)
  | Some v =>
      s ← (σ !! v : option (gset string));
      if decide (s = ∅) then Some (new_set σ) else Some (v, σ)
  end.

(** ** Traversal trees *)

(** The tree of the domains that one traversal enters: the abstract
    counterpart of an event sequence and of a built tree. *)
#[warnings="-register-all"]
Inductive rose := Rose (d : string) (ks : list rose).

(** The domain at the root of the tree. *)
Definition root (t : rose) : string := let 'Rose d _ := t in d.

(** The events of a depth-first walk of the tree. *)
Fixpoint events_of (t : rose) : list event :=
  let 'Rose d ks := t in
  (enter, d) :: concat (map events_of ks) ++ [(exit, d)].

(** The names of the tree, parents first. *)
Fixpoint names (t : rose) : list string :=
  let 'Rose d ks := t in d :: concat (map names ks).

(** The number of nodes of the tree. *)
Fixpoint tsize (t : rose) : nat :=
  let 'Rose _ ks := t in S (sum_list (map tsize ks)).

Abbreviation fevents F := (concat (map events_of F)).
Abbreviation fnames F := (concat (map names F)).
Abbreviation fsize F := (sum_list (map tsize F)).

(** The number of events of one type. *)
Definition count (ty : typ) (evs : list event) : nat :=
  length (filter (λ e, e.1 = ty) evs).

(** ** The resolver *)

Section resolver_defs.

Variable query : string → option (list Resolver.rdata).

(** The include terms that [__call__] finds for a domain, in the text
    of the selected rdata split as it is, with its quotes on, and the
    names that it takes from them with [record.split(':')[1]]. *)
Definition include_terms (domain : string) : list string :=
  match query domain with
  | Some answer =>
      filter Resolver.is_include
        (Str.split (find Resolver.is_spf (map Resolver.to_text answer) ""))
  | None => []
  end.

Definition field1 (record : string) : option string :=
  Str.split_on ":" record !! 1.

Definition include_names (domain : string) : list string :=
  omap field1 (include_terms domain).

(** The tree follows the include terms: the children of a domain are
    among the names its record includes, in the order of the record. *)
#[warnings="-register-all"]
Inductive follows : rose → Prop :=
| follows_intro d ks :
    sublist (map root ks) (include_names d) →
    Forall follows ks →
    follows (Rose d ks).

(** [__call__] once [visited] is bound to a set of the store. *)
Definition body (fuel : nat) (domain : string) (visited : loc) (σ : sets)
    : option Resolver.result :=
  s ← (σ !! visited : option (gset string));
  if decide (domain ∈ s) then Some ([], σ)
  else
    '(evs, σ) ← Resolver.includes (Resolver.__call__ query fuel)
                   (include_terms domain) visited
                   (<[visited := {[domain]} ∪ s]> σ);
    Some ((enter, domain) :: evs ++ [(exit, domain)], σ).

(** What a call leaves when the set [s] bound to [visited] is at [v]:
    the events are those of a forest [F] of new names, which the set
    gains. *)
Definition walked (recs : list string) (v : loc) (s : gset string)
    (σ : sets) (r : Resolver.result) : Prop :=
  ∃ F : list rose,
    r.1 = fevents F ∧
    r.2 = <[v := list_to_set (fnames F) ∪ s]> σ ∧
    NoDup (fnames F) ∧
    (∀ x, x ∈ fnames F → x ∉ s) ∧
    sublist (map root F) recs ∧
    Forall follows F.

Definition call_ok (fuel : nat) : Prop :=
  ∀ domain v σ s r,
    σ !! v = Some s → s ≠ ∅ →
    Resolver.__call__ query fuel domain (Some v) σ = Some r →
    walked [domain] v s σ r.

Definition call_total (zone : gset string) (fuel : nat) : Prop :=
  ∀ domain v σ s,
    σ !! v = Some s → s ≠ ∅ → size (zone ∖ s) < fuel →
    is_Some (Resolver.__call__ query fuel domain (Some v) σ).

End resolver_defs.

(** ** The invariant of Node *)

(** The names of the children of a node, in the order of [children]. *)
Definition child_names (h : heap) (n : Node) : option (list string) :=
  mapM (λ c : loc, name <$> h !! c) (children n).

(** No two children of the node share a name, and [children_names] is
    the set of the names of the children. *)
Definition node_ok (h : heap) (n : Node) : Prop :=
  ∃ nms, child_names h n = Some nms ∧ NoDup nms ∧
         children_names n = list_to_set nms.

Definition heap_ok (h : heap) : Prop :=
  ∀ l n, h !! l = Some n → node_ok h n.

(** The heap [h'] keeps the names of the nodes of [h]. *)
Definition keeps_names (h h' : heap) : Prop :=
  ∀ c x, name <$> h !! c = Some x → name <$> h' !! c = Some x.

(** Every entry of the stack of the builder is a node of the heap. *)
Definition stack_ok (h : heap) (stack : list (option loc)) : Prop :=
  Forall (λ x, ∃ l : loc, x = Some l ∧ is_Some (h !! l)) stack.

(** ** The layout of a built tree *)

(** The builder allocates the nodes in the order of the [enter] events:
    a node is followed by its first child and the descendants of that
    child, then by its second child, and so on. *)
Fixpoint child_locs (l : loc) (ks : list rose) : list loc :=
  match ks with
  | [] => []
  | k :: ks' => l :: child_locs (l + tsize k) ks'
  end.

(** The nodes of the tree [t] when its root is allocated at [l]. *)
Fixpoint layout (l : loc) (t : rose) : list Node :=
  let 'Rose d ks := t in
  mkNode d (list_to_set (map root ks)) (child_locs (S l) ks) ::
  (fix flayout (l : loc) (ks : list rose) : list Node :=
     match ks with
     | [] => []
     | k :: ks' => layout l k ++ flayout (l + tsize k) ks'
     end) (S l) ks.

Fixpoint flayout (l : loc) (ks : list rose) : list Node :=
  match ks with
  | [] => []
  | k :: ks' => layout l k ++ flayout (l + tsize k) ks'
  end.

(** The children of every node of the tree have distinct names. *)
#[warnings="-register-all"]
Inductive distinct_siblings : rose → Prop :=
| distinct_siblings_intro d ks :
    NoDup (map root ks) →
    Forall distinct_siblings ks →
    distinct_siblings (Rose d ks).

(** The node [p] after it gained the children [ks], the first of them
    allocated at [l]. *)
Definition with_children (np : Node) (l : loc) (ks : list rose) : Node :=
  mkNode (name np) (list_to_set (map root ks) ∪ children_names np)
    (children np ++ child_locs l ks).

(** The builder, with the node [p] on top of its stack, consumes the
    walk of [k]: [p] gains one child, laid out at the end of the heap. *)
Definition built_under (k : rose) : Prop :=
  ∀ rest tree stk h (p : loc) np,
    h !! p = Some np → root k ∉ children_names np → distinct_siblings k →
    TreeBuilder.consume (events_of k ++ rest) tree (Some p :: stk) h =
    TreeBuilder.consume rest (Some (mkTree (Some (length h)))) (Some p :: stk)
      (<[p := with_children np (length h) [k]]> h ++ layout (length h) k).

(** ** The nodes of a tree *)

(** [reach h l l']: the node [l'] is the node [l] or one of its
    descendants. *)
Inductive reach (h : heap) : loc → loc → Prop :=
| reach_refl l : is_Some (h !! l) → reach h l l
| reach_step l n c l' :
    h !! l = Some n → c ∈ children n → reach h c l' → reach h l l'.

(** The heap [h] holds the nodes [seg] from the reference [l] on. *)
Definition sits (h : heap) (l : loc) (seg : list Node) : Prop :=
  ∀ i n, seg !! i = Some n → h !! (l + i) = Some n.

(** [each_node] once [visited] is bound to a set of the store. *)
Definition each_body (fuel : nat) (h : heap) (self : Tree)
    (visited : loc) (node : option loc) (σ : sets)
    : option (list loc * sets) :=
  node ← TreeOps.or_head self node;
  nd ← h !! node;
  s ← (σ !! visited : option (gset string));
  if decide (name nd ∈ s) then Some ([], σ)
  else
    '(rs, σ) ← TreeOps.each_node_loop (TreeOps.each_node fuel h self) visited
                  (children nd) (<[visited := {[name nd]} ∪ s]> σ);
    Some (node :: rs, σ).

(** [each_node] on the heap [h] only adds names to the set bound to
    [visited]. *)
Definition each_ok (h : heap) (fuel : nat) : Prop :=
  ∀ self v node σ s r,
    σ !! v = Some s → s ≠ ∅ →
    TreeOps.each_node fuel h self (Some v) node σ = Some r →
    ∃ s' : gset string, r.2 = <[v := s' ∪ s]> σ.

(** [each_node] on a laid out tree, away from the names of [visited],
    yields the nodes in the order of the heap and adds their names. *)
Definition each_laid (h : heap) (self : Tree) (t : rose) : Prop :=
  ∀ fuel l v σ s,
    tsize t ≤ fuel → sits h l (layout l t) →
    σ !! v = Some s → s ≠ ∅ →
    NoDup (names t) → (∀ x, x ∈ names t → x ∉ s) →
    TreeOps.each_node fuel h self (Some v) (Some l) σ =
    Some (seq l (tsize t), <[v := list_to_set (names t) ∪ s]> σ).

(** The tree of names below the node [l], when the heap holds a tree
    there: a node that is its own descendant has no snapshot, whatever
    the fuel. *)
Fixpoint snapshot (fuel : nat) (h : heap) (l : loc) : option rose :=
  match fuel with
  | 0 => None
  | S fuel' =>
      n ← h !! l;
      ks ← mapM (snapshot fuel' h) (children n);
      Some (Rose (name n) ks)
  end.

(** The bigrams that one child contributes to the loop of [bigrams]:
    those of its subtree, then the edge from the parent. *)
Definition bigrams_part (rec : option loc → option (list (string * string)))
    (h : heap) (node : Node) (c : loc) (part : list (string * string)) : Prop :=
  ∃ nc outc, h !! c = Some nc ∧ rec (Some c) = Some outc ∧
             part = outc ++ [(name node, name nc)].

(** The pair [e] is an edge of the heap below the node [l]. *)
Definition edge_below (h : heap) (l : loc) (e : string * string) : Prop :=
  ∃ (p c : loc) np nc,
    reach h l p ∧ h !! p = Some np ∧ c ∈ children np ∧ h !! c = Some nc ∧
    e = (name np, name nc).

(** ** Sample zones *)

(** The text of a TXT rdata that holds the one string [s]. *)
Definition quoted (s : string) : string :=
  String Str.dquote (s +:+ String Str.dquote EmptyString).

(** [example.com] includes [_spf.google.com], which includes
    [_netblocks.google.com], which has no TXT record. *)
Definition sample_query (d : string) : option (list Resolver.rdata) :=
  if String.eqb d "example.com" then
    Some [quoted "v=spf1 include:_spf.google.com ~all"]
  else if String.eqb d "_spf.google.com" then
    Some [quoted "v=spf1 include:_netblocks.google.com ~all"]
  else None.

(** [a.test] and [b.test] include each other. *)
Definition cycle_query (d : string) : option (list Resolver.rdata) :=
  if String.eqb d "a.test" then Some [quoted "v=spf1 include:b.test ~all"]
  else if String.eqb d "b.test" then Some [quoted "v=spf1 include:a.test ~all"]
  else None.

(** [a.test] and [b.test] include each other, and in both records the
    include term is the last term. *)
Definition quote_cycle_query (d : string) : option (list Resolver.rdata) :=
  if String.eqb d "a.test" then Some [quoted "v=spf1 include:b.test"]
  else if String.eqb d "b.test" then Some [quoted "v=spf1 include:a.test"]
  else None.

(** The name [b.test] followed by a double quote. *)
Definition b_test_quote : string :=
  "b.test" +:+ String Str.dquote EmptyString.

(** Follows the words of the specification, to be compared with
    [include_names]: [A] includes [B] when the SPF record of [A] has
    the include mechanism of [B], a term of the form [include:B].  The
    SPF record is the string that the first SPF rdata holds, which is
    its text without the surrounding quotes. *)
Definition spec_includes (query : string → option (list Resolver.rdata))
    (A B : string) : Prop :=
  ∃ answer,
    query A = Some answer ∧
    "include:" +:+ B ∈
      Str.split (Str.strip (String Str.dquote EmptyString)
                   (find Resolver.is_spf (map Resolver.to_text answer) "")).

(** [d.test] has an include term with two colons. *)
Definition colon_query (d : string) : option (list Resolver.rdata) :=
  if String.eqb d "d.test" then Some ["v=spf1 include:a:b"] else None.

(** ** The include terms of a record *)

(** [record] is the first of the texts [res] that is an SPF record, or
    the empty string when there is none. *)
Definition first_spf (res : list string) (record : string) : Prop :=
  (∃ l1 l2, res = l1 ++ record :: l2 ∧
            Forall (λ x, Resolver.is_spf x = false) l1 ∧
            Resolver.is_spf record = true)
  ∨ (Forall (λ x, Resolver.is_spf x = false) res ∧ record = "").

(** The calls [rec] resolve the names [nms] in turn, on the set at [v]:
    the events of each call come whole before those of the next. *)
Inductive resolved_in_turn
    (rec : string → option loc → sets → option Resolver.result) (v : loc)
    : list string → sets → list event → sets → Prop :=
| resolved_nil σ : resolved_in_turn rec v [] σ [] σ
| resolved_cons nm nms σ e1 σ1 e2 σ2 :
    rec nm (Some v) σ = Some (e1, σ1) →
    resolved_in_turn rec v nms σ1 e2 σ2 →
    resolved_in_turn rec v (nm :: nms) σ (e1 ++ e2) σ2.

(** On a successful lookup the resolver takes the first SPF record,
    splits it at white space and resolves in turn, between the [enter]
    and the [exit] of the domain, the names that [name_of] extracts from
    the terms that start with [include:]. *)
Definition includes_resolved_with (name_of : string → string) : Prop :=
  ∀ query fuel domain visited σ v σ0 s answer evs σ',
    bind_visited visited σ = Some (v, σ0) →
    σ0 !! v = Some s → domain ∉ s →
    query domain = Some answer →
    Resolver.__call__ query (S fuel) domain visited σ = Some (evs, σ') →
    let record := find Resolver.is_spf (map Resolver.to_text answer) "" in
    first_spf (map Resolver.to_text answer) record ∧
    ∃ inner,
      evs = (enter, domain) :: inner ++ [(exit, domain)] ∧
      resolved_in_turn (Resolver.__call__ query fuel) v
        (map name_of (filter Resolver.is_include (Str.split record)))
        (<[v := {[domain]} ∪ s]> σ0) inner σ'.

(** The text after the colon of an include term. *)
Definition after_colon (record : string) : string := Str.after ":" record.

(** The text between the first colon of an include term and the next
    colon, or the end of the term. *)
Definition between_colons (record : string) : string :=
  Str.until ":" (Str.after ":" record).

(** ** A chain of three nodes *)

(** [a = Node(A); b = a.add_child(B); b.add_child(C); Tree(a)] *)
Definition chain3 (A B C : string) (h : heap) : option (Tree * heap) :=
  let '(a, h) := Node_init A h in
  '(b, h) ← add_child a B h;
  b ← b;
  '(_, h) ← add_child b C h;
  Some (mkTree (Some a), h).

(** The heap that [chain3] leaves. *)
Definition chain3_nodes (A B C : string) (l : loc) : list Node :=
  [mkNode A {[B]} [S l]; mkNode B {[C]} [S (S l)]; mkNode C ∅ []].

(** The record of the node [l] is [o]: its name, and the names of its
    children, each once. *)
Definition record_of (h : heap) (l : loc) (o : obj) : Prop :=
  ∃ n, h !! l = Some n ∧ obj_name o = name n ∧
       NoDup (obj_children o) ∧
       (∀ x, x ∈ obj_children o ↔ x ∈ children_names n) ∧
       (node_ok h n →
        ∀ x, x ∈ obj_children o ↔
             ∃ (c : loc) nc, c ∈ children n ∧ h !! c = Some nc ∧ name nc = x).

(** [each_node] yields nodes of the heap. *)
Definition each_valid (h : heap) (fuel : nat) : Prop :=
  ∀ self visited node σ rs σ',
    TreeOps.each_node fuel h self visited node σ = Some (rs, σ') →
    Forall (λ l : loc, is_Some (h !! l)) rs.

(** [a.test] includes [b.test] and [c.test], which both include
    [d.test]. *)
Definition diamond_query (d : string) : option (list Resolver.rdata) :=
  if String.eqb d "a.test" then
    Some [quoted "v=spf1 include:b.test include:c.test ~all"]
  else if String.eqb d "b.test" then Some [quoted "v=spf1 include:d.test ~all"]
  else if String.eqb d "c.test" then Some [quoted "v=spf1 include:d.test ~all"]
  else None.

(** ** The domains of an event sequence *)

(** The domains of the [enter] events, in order. *)
Definition entered (evs : list event) : list string :=
  map snd (filter (λ e : event, e.1 = enter) evs).

(** The domains of the [exit] events, in order. *)
Definition exited (evs : list event) : list string :=
  map snd (filter (λ e : event, e.1 = exit) evs).

(** The characters of a string. *)
Fixpoint chars (s : string) : list ascii :=
  match s with
  | EmptyString => []
  | String a s' => a :: chars s'
  end.

(** ** The edges of a traversal tree *)


(** ** [digraph] *)




(** ** [each_node] on any heap *)

(** The nodes [rs] have the names [nms], in order. *)
Definition named (h : heap) (rs : list loc) (nms : list string) : Prop :=
  Forall2 (λ (l : loc) x, name <$> h !! l = Some x) rs nms.

(** [each_node], on a set [s] that is not empty, yields nodes of
    distinct names that are not in [s], and adds these names to the
    set. *)
Definition each_spec (h : heap) (fuel : nat) : Prop :=
  ∀ self v node σ s rs σ',
    σ !! v = Some s → s ≠ ∅ →
    TreeOps.each_node fuel h self (Some v) node σ = Some (rs, σ') →
    ∃ nms, named h rs nms ∧ NoDup nms ∧ (∀ x, x ∈ nms → x ∉ s) ∧
           σ' = <[v := list_to_set nms ∪ s]> σ.

(** Every reference to a child is a node of the heap. *)
Definition closed (h : heap) : Prop :=
  ∀ (l : loc) n (c : loc), h !! l = Some n → c ∈ children n → is_Some (h !! c).

(** The names of the nodes of the heap. *)
Definition heap_names (h : heap) : gset string := list_to_set (map name h).

(** [each_node] returns once the fuel exceeds the number of the names
    that are not yet in the set. *)
Definition each_total (h : heap) (fuel : nat) : Prop :=
  ∀ self v node (l : loc) σ s,
    σ !! v = Some s → s ≠ ∅ →
    TreeOps.or_head self node = Some l → is_Some (h !! l) →
    size (heap_names h ∖ s) < fuel →
    is_Some (TreeOps.each_node fuel h self (Some v) node σ).

(** ** The includes that a call has followed *)

(** A call on the set at [v] leaves a larger set that holds the domain,
    and, for every name it added, the names that the record of that name
    includes. *)
Definition call_closed (query : string → option (list Resolver.rdata))
    (fuel : nat) : Prop :=
  ∀ domain v σ s r,
    σ !! v = Some s → s ≠ ∅ →
    Resolver.__call__ query fuel domain (Some v) σ = Some r →
    ∃ s' : gset string,
      r.2 = <[v := s']> σ ∧ s ⊆ s' ∧ domain ∈ s' ∧
      ∀ x, x ∈ s' → x ∉ s → ∀ y, y ∈ include_names query x → y ∈ s'.



Definition diamond_events : list event :=
  [(enter, "a.test"); (enter, "b.test"); (enter, "d.test");
   (exit, "d.test"); (exit, "b.test"); (enter, "c.test");
   (exit, "c.test"); (exit, "a.test")].

Definition diamond_visited : sets :=
  [{[ "a.test"; "b.test"; "d.test"; "c.test" ]}].

(** * Lemmas *)

(** ** Strings *)

Module StrFacts.

Lemma startswith_app p s :
  Str.startswith p s = true → s = p +:+ Str.drop (String.length p) s.
Proof.
  revert s. induction p as [|a p IH]; intros [|b s]; simpl; try done.
  intros [Hab Hp]%andb_prop. apply Ascii.eqb_eq in Hab as ->.
  change (String b s = String b (p +:+ Str.drop (String.length p) s)).
  f_equal. by apply IH.
Qed.

Lemma split_on_head sep s :
  ∃ ws, Str.split_on sep s = Str.until sep s :: ws.
Proof.
  induction s as [|a s [ws IH]]; simpl; [by eexists|].
  destruct (Ascii.eqb a sep); [by eexists|].
  rewrite IH. by eexists.
Qed.

(** [record.split(':')[1]] of a term that starts with [include:] is the
    text between its first colon and the next one. *)
Lemma include_field record :
  Resolver.is_include record = true →
  Str.split_on ":" record !! 1 = Some (Str.until ":" (Str.drop 8 record)).
Proof.
  intros H%startswith_app. simpl String.length in H.
  revert H. generalize (Str.drop 8 record). intros r ->.
  destruct (split_on_head ":" r) as [ws Hws].
  change (Str.split_on ":" ("include:" +:+ r))
    with ("include" :: Str.split_on ":" r).
  by rewrite Hws.
Qed.

Lemma find_none {A} (f : A → bool) itr default :
  Forall (λ x, f x = false) itr → find f itr default = default.
Proof. induction 1 as [|x l Hx _ IH]; simpl; [done|]. by rewrite Hx. Qed.

(** [find] returns the first element that satisfies the predicate. *)
Lemma find_first {A} (f : A → bool) itr default x :
  find f itr default = x →
  (∃ l1 l2, itr = l1 ++ x :: l2 ∧ Forall (λ y, f y = false) l1 ∧ f x = true)
  ∨ (Forall (λ y, f y = false) itr ∧ x = default).
Proof.
  intros <-. induction itr as [|y l IH]; simpl; [by right|].
  destruct (f y) eqn:Hy.
  - left. by exists [], l.
  - destruct IH as [(l1 & l2 & Hl & H1 & H2)|[H1 H2]].
    + left. exists (y :: l1), l2. split_and!; [by rewrite Hl at 1|by constructor|done].
    + right. split; [by constructor|done].
Qed.

End StrFacts.

(** ** Traversal trees *)

Lemma rose_ind' (P : rose → Prop) :
  (∀ d ks, Forall P ks → P (Rose d ks)) → ∀ t, P t.
Proof.
  intros H. fix IH 1. intros [d ks]. apply H.
  induction ks as [|k ks IHks]; constructor; [apply IH|apply IHks].
Qed.

Lemma count_app ty evs evs' :
  count ty (evs ++ evs') = count ty evs + count ty evs'.
Proof. unfold count. by rewrite filter_app, length_app. Qed.

Lemma fevents_count F :
  Forall (λ t, count enter (events_of t) = count exit (events_of t)) F →
  count enter (fevents F) = count exit (fevents F).
Proof.
  induction 1 as [|k ks Hk _ IHks]; simpl; [done|].
  rewrite !count_app. lia.
Qed.

(** A walk has as many [enter] as [exit] events. *)
Lemma events_of_count t :
  count enter (events_of t) = count exit (events_of t).
Proof.
  induction t as [d ks IH%fevents_count] using rose_ind'. simpl.
  change ((enter, d) :: ?l) with ([(enter, d)] ++ l).
  rewrite !count_app, IH.
  assert (count exit [(enter, d)] = 0) as -> by done.
  assert (count enter [(enter, d)] = 1) as -> by done.
  assert (count exit [(exit, d)] = 1) as -> by done.
  assert (count enter [(exit, d)] = 0) as -> by done.
  lia.
Qed.

(** No prefix of a walk has more [exit] than [enter] events. *)
Lemma events_of_prefix t n :
  count exit (take n (events_of t)) ≤ count enter (take n (events_of t)).
Proof.
  revert n. induction t as [d ks IH] using rose_ind'. intros n.
  assert (HF : ∀ m, count exit (take m (fevents ks))
                    ≤ count enter (take m (fevents ks))).
  { induction IH as [|k ks Hk _ IHks]; intros m; simpl.
    - by rewrite take_nil.
    - rewrite take_app, !count_app.
      specialize (Hk m). specialize (IHks (m - length (events_of k))). lia. }
  destruct n as [|n]; simpl; [done|].
  rewrite take_app.
  change ((enter, d) :: ?l) with ([(enter, d)] ++ l).
  rewrite !count_app.
  specialize (HF n).
  assert (count exit [(enter, d)] = 0) as -> by done.
  assert (count enter [(enter, d)] = 1) as -> by done.
  assert (count enter (take (n - length (fevents ks)) [(exit, d)]) = 0) as ->.
  { by destruct (n - length (fevents ks)) as [|[|m]]. }
  assert (count exit (take (n - length (fevents ks)) [(exit, d)]) ≤ 1).
  { destruct (n - length (fevents ks)) as [|[|m]]; unfold count; simpl; lia. }
  lia.
Qed.

(** ** The resolver *)

Section resolver_facts.

Variable query : string → option (list Resolver.rdata).

Lemma call_body fuel domain visited σ :
  Resolver.__call__ query (S fuel) domain visited σ =
  '(v, σ) ← bind_visited visited σ; body query fuel domain v σ.
Proof.
  simpl. unfold body, include_terms, bind_visited.
  destruct (match visited with None => _ | Some _ => _ end) as [[v σ1]|];
    simpl; [|done].
  destruct (σ1 !! v) as [s|]; simpl; [|done].
  case_decide; [done|]. by destruct (query domain).
Qed.

Lemma call_Some fuel domain v σ s :
  σ !! v = Some s → s ≠ ∅ →
  Resolver.__call__ query (S fuel) domain (Some v) σ = body query fuel domain v σ.
Proof.
  intros Hv Hs. rewrite call_body. unfold bind_visited. rewrite Hv. simpl.
  by case_decide.
Qed.

Lemma call_None fuel domain σ :
  Resolver.__call__ query (S fuel) domain None σ =
  body query fuel domain (length σ) (σ ++ [∅]).
Proof. by rewrite call_body. Qed.

Lemma call_empty fuel domain v σ :
  σ !! v = Some ∅ →
  Resolver.__call__ query (S fuel) domain (Some v) σ =
  body query fuel domain (length σ) (σ ++ [∅]).
Proof.
  intros Hv. rewrite call_body. unfold bind_visited. rewrite Hv. simpl.
  by case_decide.
Qed.

Lemma includes_ok fuel :
  call_ok query fuel →
  ∀ records v σ s r,
    σ !! v = Some s → s ≠ ∅ →
    Resolver.includes (Resolver.__call__ query fuel) records v σ = Some r →
    walked query (omap field1 records) v s σ r.
Proof.
  intros IH records. induction records as [|record records IHr];
    intros v σ s r Hv Hs Hr; simpl in Hr.
  - injection Hr as <-. exists []. simpl. split_and!; try done.
    + rewrite (left_id_L ∅ (∪)). by rewrite list_insert_id.
    + constructor.
    + set_solver.
  - fold (field1 record) in Hr. simpl.
    destruct (field1 record) as [nm|]; simpl in Hr; [|done].
    destruct (Resolver.__call__ query fuel nm (Some v) σ) as [[e1 σ1]|] eqn:H1;
      simpl in Hr; [|done].
    destruct (Resolver.includes _ records v σ1) as [[e2 σ2]|] eqn:H2;
      simpl in Hr; [|done].
    injection Hr as <-.
    destruct (IH _ _ _ _ _ Hv Hs H1) as (F1 & He1 & Hσ1 & Hnd1 & Hs1 & Hr1 & Hf1).
    simpl in He1, Hσ1. subst e1 σ1.
    assert (Hlt : v < length σ) by by eapply lookup_lt_Some.
    eapply IHr in H2 as (F2 & He2 & Hσ2 & Hnd2 & Hs2 & Hr2 & Hf2);
      [|by apply list_lookup_insert_eq|set_solver].
    simpl in He2, Hσ2. subst e2 σ2.
    exists (F1 ++ F2). rewrite !map_app, !concat_app. simpl. split_and!.
    + done.
    + rewrite list_insert_insert_eq. f_equal. set_solver.
    + apply NoDup_app. split_and!; [done|set_solver|done].
    + set_solver.
    + change (nm :: ?l) with ([nm] ++ l). by apply sublist_app.
    + by apply Forall_app.
Qed.

Lemma body_ok fuel :
  call_ok query fuel →
  ∀ domain v σ s r,
    σ !! v = Some s →
    body query fuel domain v σ = Some r →
    if decide (domain ∈ s) then r = ([], σ)
    else ∃ t, root t = domain ∧ r.1 = events_of t ∧
              r.2 = <[v := list_to_set (names t) ∪ s]> σ ∧
              NoDup (names t) ∧ (∀ x, x ∈ names t → x ∉ s) ∧ follows query t.
Proof.
  intros IH domain v σ s r Hv Hr. unfold body in Hr. rewrite Hv in Hr.
  simpl in Hr. case_decide as Hd; [by injection Hr|].
  destruct (Resolver.includes _ _ v _) as [[evs σ1]|] eqn:Hi; simpl in Hr; [|done].
  injection Hr as <-.
  assert (Hlt : v < length σ) by by eapply lookup_lt_Some.
  eapply includes_ok in Hi as (F & He & Hσ & Hnd & Hs & Hr & Hf);
    [|done|by apply list_lookup_insert_eq|set_solver].
  simpl in He, Hσ. subst evs σ1.
  exists (Rose domain F). simpl. split_and!.
  - done.
  - done.
  - rewrite list_insert_insert_eq. f_equal. set_solver.
  - apply NoDup_cons. split; [|done]. intros Hin%Hs. set_solver.
  - intros x [->|Hx]%elem_of_cons; [done|]. apply Hs in Hx. set_solver.
  - by constructor.
Qed.

Lemma call_ok_all fuel : call_ok query fuel.
Proof.
  induction fuel as [|fuel IH]; intros domain v σ s r Hv Hs Hr; [done|].
  rewrite (call_Some _ _ _ _ _ Hv Hs) in Hr.
  pose proof (body_ok _ IH _ _ _ _ _ Hv Hr) as H.
  case_decide as Hd.
  - subst r. exists []. simpl. split_and!; try done.
    + rewrite (left_id_L ∅ (∪)). by rewrite list_insert_id.
    + constructor.
    + set_solver.
    + apply sublist_nil_l.
  - destruct H as (t & Ht & He & Hσ & Hnd & Hfresh & Hf).
    exists [t]. simpl. rewrite !app_nil_r, Ht. by split_and!; [..|constructor].
Qed.

(** The root call, with no [visited] argument, walks one tree whose
    names are distinct. *)
Lemma call_root fuel domain σ r :
  Resolver.__call__ query fuel domain None σ = Some r →
  ∃ t, root t = domain ∧ r.1 = events_of t ∧
       r.2 = σ ++ [list_to_set (names t)] ∧ NoDup (names t) ∧ follows query t.
Proof.
  destruct fuel as [|fuel]; [done|]. rewrite call_None. intros Hr.
  eapply (body_ok _ (call_ok_all _) _ _ _ ∅) in Hr;
    [|by apply list_lookup_middle].
  case_decide as Hd; [set_solver|].
  destruct Hr as (t & Ht & He & Hσ & Hnd & _ & Hf).
  exists t. split_and!; try done.
  rewrite Hσ, (right_id_L ∅ (∪)).
  by rewrite (insert_app_r_alt σ) by lia; rewrite Nat.sub_diag.
Qed.

Lemma include_terms_are_includes domain :
  Forall (λ r, Resolver.is_include r = true) (include_terms query domain).
Proof.
  unfold include_terms. destruct (query domain); [|done].
  apply Forall_forall. by intros r [?%Is_true_true _]%list_elem_of_filter.
Qed.

(** *** Termination *)

Section total.

(** The traversal is finite when the domains whose records include
    others are within a finite set. *)
Variable zone : gset string.
Hypothesis zone_closed : ∀ d, d ∉ zone → include_terms query d = [].

Lemma includes_total fuel :
  call_total query zone fuel →
  ∀ records v σ s,
    Forall (λ r, Resolver.is_include r = true) records →
    σ !! v = Some s → s ≠ ∅ → size (zone ∖ s) < fuel →
    is_Some (Resolver.includes (Resolver.__call__ query fuel) records v σ).
Proof.
  intros IH records. induction records as [|record records IHr];
    intros v σ s Hrec Hv Hs Hsz; simpl; [done|].
  apply Forall_cons in Hrec as [Hi Hrec].
  rewrite (StrFacts.include_field _ Hi).
  generalize (Str.until ":" (Str.drop 8 record)). intros nm.
  simpl. destruct (IH nm _ _ _ Hv Hs Hsz) as [[e1 σ1] H1].
  rewrite H1. simpl.
  apply (call_ok_all _ _ _ _ _ _ Hv Hs) in H1 as (F & _ & Hσ & _).
  simpl in Hσ. subst σ1.
  assert (Hlt : v < length σ) by by eapply lookup_lt_Some.
  edestruct (IHr v (<[v:=list_to_set (fnames F) ∪ s]> σ)) as [[e2 σ2] H2];
    [done|by apply list_lookup_insert_eq|set_solver| |by rewrite H2].
  eapply Nat.le_lt_trans; [|done]. apply subseteq_size. set_solver.
Qed.

Lemma body_total fuel :
  call_total query zone fuel →
  ∀ domain v σ s,
    σ !! v = Some s → size (zone ∖ s) ≤ fuel →
    is_Some (body query fuel domain v σ).
Proof.
  intros IH domain v σ s Hv Hsz. unfold body. rewrite Hv. simpl.
  case_decide as Hd; [done|].
  assert (Hlt : v < length σ) by by eapply lookup_lt_Some.
  destruct (decide (domain ∈ zone)) as [Hz|Hz].
  - edestruct (includes_total _ IH (include_terms query domain) v
                 (<[v:={[domain]} ∪ s]> σ)) as [[e σ1] H1];
      [apply include_terms_are_includes|by apply list_lookup_insert_eq
      |set_solver| |by rewrite H1].
    eapply Nat.lt_le_trans; [|done]. apply subset_size.
    apply strict_spec_alt. split; [set_solver|].
    intros Heq. assert (domain ∈ zone ∖ s) as Hin by set_solver.
    rewrite <-Heq in Hin. set_solver.
  - by rewrite (zone_closed _ Hz).
Qed.

Lemma call_total_all fuel : call_total query zone fuel.
Proof.
  induction fuel as [|fuel IH]; intros domain v σ s Hv Hs Hsz; [lia|].
  rewrite (call_Some _ _ _ _ _ Hv Hs). eapply body_total; [done..|lia].
Qed.

(** The root call returns once the fuel exceeds the size of the zone. *)
Lemma call_terminates fuel domain σ :
  size zone < fuel → is_Some (Resolver.__call__ query fuel domain None σ).
Proof.
  destruct fuel as [|fuel]; [lia|]. intros Hsz. rewrite call_None.
  eapply (body_total _ (call_total_all _) _ _ _ ∅);
    [by apply list_lookup_middle|].
  rewrite (difference_empty_L zone). lia.
Qed.

End total.

End resolver_facts.

(** ** Node *)

Lemma keeps_names_refl h : keeps_names h h.
Proof. by intros c x. Qed.

Lemma keeps_names_trans h1 h2 h3 :
  keeps_names h1 h2 → keeps_names h2 h3 → keeps_names h1 h3.
Proof. intros H1 H2 c x Hc. by apply H2, H1. Qed.

Lemma keeps_names_app h l : keeps_names h (h ++ l).
Proof.
  intros c x Hc. destruct (h !! c) as [n|] eqn:Hn; [|done].
  by rewrite (lookup_app_l_Some _ _ _ _ Hn).
Qed.

Lemma keeps_names_insert h l n n' :
  h !! l = Some n → name n' = name n → keeps_names h (<[l := n']> h).
Proof.
  intros Hl Hn c x Hc. destruct (decide (l = c)) as [<-|Hne].
  - rewrite list_lookup_insert_eq by by eapply lookup_lt_Some.
    rewrite Hl in Hc. simpl in *. congruence.
  - by rewrite list_lookup_insert_ne.
Qed.

Lemma child_names_keep h h' n nms :
  keeps_names h h' → child_names h n = Some nms → child_names h' n = Some nms.
Proof.
  unfold child_names. intros Hk. rewrite !mapM_Some.
  intros H. eapply Forall2_impl; [done|]. intros c x. apply Hk.
Qed.

Lemma node_ok_keep h h' n :
  keeps_names h h' → node_ok h n → node_ok h' n.
Proof.
  intros Hk (nms & Hc & Hnd & Hs). exists nms.
  by split_and!; [eapply child_names_keep|..].
Qed.

Lemma node_ok_init h nm : node_ok h (mkNode nm ∅ []).
Proof. exists []. split_and!; [done|constructor|done]. Qed.

Lemma heap_ok_init nm h : heap_ok h → heap_ok (Node_init nm h).2.
Proof.
  intros Hh l n Hl. simpl in Hl.
  apply lookup_app_Some in Hl as [Hl|[_ Hl]].
  - eapply node_ok_keep; [apply keeps_names_app|by eapply Hh].
  - apply list_lookup_singleton_Some in Hl as [_ <-]. apply node_ok_init.
Qed.

(** [add_child] with a name that is not among [children_names]. *)
Lemma add_child_new self nm h n :
  h !! self = Some n → nm ∉ children_names n →
  add_child self nm h =
    Some (Some (length h),
          <[self := mkNode (name n) ({[nm]} ∪ children_names n)
                      (children n ++ [length h])]> (h ++ [mkNode nm ∅ []])).
Proof. intros Hn Hnm. unfold add_child. rewrite Hn. simpl. by case_decide. Qed.

(** [add_child] with a name that is among [children_names]. *)
Lemma add_child_old self nm h n :
  h !! self = Some n → nm ∈ children_names n →
  add_child self nm h =
    Some (find (has_name h nm) (Some <$> children n) None, h).
Proof.
  intros Hn Hnm. unfold add_child. rewrite Hn. simpl.
  by case_decide.
Qed.

Lemma find_skip h nm cs nms rest :
  Forall2 (λ c x, name <$> h !! c = Some x) cs nms → nm ∉ nms →
  find (has_name h nm) (Some <$> (cs ++ rest)) None =
  find (has_name h nm) (Some <$> rest) None.
Proof.
  induction 1 as [|c x cs nms Hc _ IH]; intros Hnm; [done|].
  apply not_elem_of_cons in Hnm as [Hne Hnm]. simpl.
  unfold has_name at 1. simpl.
  destruct (h !! c) as [nc|]; simplify_eq/=.
  rewrite bool_decide_eq_false_2 by done. by apply IH.
Qed.

(** Under the invariant, [find] returns a child for a name of
    [children_names]. *)
Lemma find_child h n nm :
  node_ok h n → nm ∈ children_names n →
  ∃ c nc, find (has_name h nm) (Some <$> children n) None = Some c ∧
          c ∈ children n ∧ h !! c = Some nc ∧ name nc = nm.
Proof.
  intros (nms & Hc & Hnd & ->) Hnm. apply elem_of_list_to_set in Hnm.
  unfold child_names in Hc. apply mapM_Some in Hc.
  clear Hnd. induction Hc as [|c x cs nms Hx _ IH]; [by apply elem_of_nil in Hnm|].
  simpl. unfold has_name at 1. simpl.
  destruct (h !! c) as [nc|] eqn:Hnc; simplify_eq/=.
  case_bool_decide as Hn.
  - exists c, nc. split_and!; [done|by left|done|done].
  - apply elem_of_cons in Hnm as [->|Hnm]; [done|].
    destruct (IH Hnm) as (c' & nc' & Hf & Hin & Hl & Hname).
    exists c', nc'. split_and!; [done|by right|done|done].
Qed.

Lemma keeps_names_add_child self nm h n :
  h !! self = Some n →
  keeps_names h
    (<[self := mkNode (name n) ({[nm]} ∪ children_names n)
                 (children n ++ [length h])]> (h ++ [mkNode nm ∅ []])).
Proof.
  intros Hn. eapply keeps_names_trans; [apply keeps_names_app|].
  eapply keeps_names_insert; [by apply lookup_app_l_Some|done].
Qed.

(** The node that gained a new child keeps the invariant. *)
Lemma node_ok_add_child self nm h n :
  h !! self = Some n → node_ok h n → nm ∉ children_names n →
  node_ok
    (<[self := mkNode (name n) ({[nm]} ∪ children_names n)
                 (children n ++ [length h])]> (h ++ [mkNode nm ∅ []]))
    (mkNode (name n) ({[nm]} ∪ children_names n) (children n ++ [length h])).
Proof.
  intros Hn (nms & Hc & Hnd & Hs) Hin.
  assert (Hlt : self < length h) by by eapply lookup_lt_Some.
  pose proof (keeps_names_add_child self nm h n Hn) as Hk.
  exists (nms ++ [nm]). unfold child_names in *. simpl. split_and!.
  - apply mapM_Some, Forall2_app.
    + apply mapM_Some. by eapply (child_names_keep h _ n).
    + constructor; [|constructor].
      rewrite list_lookup_insert_ne by lia.
      by rewrite lookup_app_r, Nat.sub_diag by lia.
  - apply NoDup_app. split_and!; [done| |apply NoDup_singleton].
    intros x Hx ->%list_elem_of_singleton. apply Hin. rewrite Hs.
    by apply elem_of_list_to_set.
  - rewrite Hs, list_to_set_app_L. set_solver.
Qed.

(** [add_child] on a node of the heap returns a node and keeps the
    invariant. *)
Lemma add_child_ok self nm h :
  heap_ok h → is_Some (h !! self) →
  ∃ c h', add_child self nm h = Some (Some c, h') ∧
          heap_ok h' ∧ keeps_names h h' ∧ is_Some (h' !! c).
Proof.
  intros Hh [n Hn]. pose proof (Hh _ _ Hn) as Hok.
  assert (Hlt : self < length h) by by eapply lookup_lt_Some.
  destruct (decide (nm ∈ children_names n)) as [Hin|Hin].
  - destruct (find_child _ _ _ Hok Hin) as (c & nc & Hf & _ & Hc & _).
    exists c, h. rewrite (add_child_old _ _ _ _ Hn Hin), Hf.
    split_and!; [done|done|apply keeps_names_refl|by eexists].
  - eexists _, _. split; [by apply add_child_new|].
    pose proof (keeps_names_add_child self nm h n Hn) as Hk.
    split_and!; [|done|].
    + intros l m Hl.
      destruct (decide (self = l)) as [<-|Hne].
      * rewrite list_lookup_insert_eq in Hl by (rewrite length_app; lia).
        injection Hl as <-. by apply node_ok_add_child.
      * rewrite list_lookup_insert_ne in Hl by done.
        apply lookup_app_Some in Hl as [Hl|[_ Hl]].
        -- eapply node_ok_keep; [done|by eapply Hh].
        -- apply list_lookup_singleton_Some in Hl as [_ <-]. apply node_ok_init.
    + rewrite list_lookup_insert_ne by lia.
      rewrite lookup_app_r, Nat.sub_diag by lia. by eexists.
Qed.

(** ** TreeBuilder *)

Lemma is_Some_keep h h' (l : loc) :
  keeps_names h h' → is_Some (h !! l) → is_Some (h' !! l).
Proof.
  intros Hk [n Hn]. specialize (Hk l (name n)).
  rewrite Hn in Hk. destruct (h' !! l); [by eexists|].
  by specialize (Hk eq_refl).
Qed.

Lemma stack_ok_keep h h' stack :
  keeps_names h h' → stack_ok h stack → stack_ok h' stack.
Proof.
  intros Hk Hst. eapply Forall_impl; [done|]. intros x (l & -> & Hl).
  exists l. split; [done|]. by eapply is_Some_keep.
Qed.

(** An [enter] event on a sound heap pushes a node of the heap. *)
Lemma consume_enter d evs tree stack h :
  heap_ok h → stack_ok h stack →
  ∃ c h1, TreeBuilder.consume ((enter, d) :: evs) tree stack h =
          TreeBuilder.consume evs tree (Some c :: stack) h1 ∧
          heap_ok h1 ∧ keeps_names h h1 ∧ is_Some (h1 !! c).
Proof.
  intros Hh Hst. destruct stack as [|top stack'].
  - eexists _, _. split; [done|]. split_and!.
    + by apply (heap_ok_init d).
    + apply keeps_names_app.
    + rewrite lookup_app_r, Nat.sub_diag by lia. by eexists.
  - apply Forall_cons in Hst as [(l & -> & Hl) _].
    destruct (add_child_ok l d h Hh Hl) as (c & h1 & Hadd & H1).
    exists c, h1. split; [|done]. simpl. by rewrite Hadd.
Qed.

(** The builder consumes the events of a walk without an exception:
    it is back at the same stack, with the tree of the node entered
    first, and the heap keeps the invariant. *)
Lemma consume_walk t :
  ∀ rest tree stack h,
    heap_ok h → stack_ok h stack →
    ∃ c h', TreeBuilder.consume (events_of t ++ rest) tree stack h =
            TreeBuilder.consume rest (Some (mkTree (Some c))) stack h' ∧
            heap_ok h' ∧ keeps_names h h' ∧ is_Some (h' !! c).
Proof.
  induction t as [d ks IH] using rose_ind'.
  intros rest tree stack h Hh Hst.
  change (events_of (Rose d ks) ++ rest)
    with ((enter, d) :: (fevents ks ++ [(exit, d)]) ++ rest).
  destruct (consume_enter d ((fevents ks ++ [(exit, d)]) ++ rest) tree stack h)
    as (c & h1 & -> & Hh1 & Hk1 & Hc1); [done..|].
  assert (∀ tree1 h1,
    heap_ok h1 → is_Some (h1 !! c) → stack_ok h1 stack →
    ∃ tree2 h2,
      TreeBuilder.consume (fevents ks ++ (exit, d) :: rest) tree1
        (Some c :: stack) h1 =
      TreeBuilder.consume ((exit, d) :: rest) tree2 (Some c :: stack) h2 ∧
      heap_ok h2 ∧ keeps_names h1 h2) as Hkids.
  { clear -IH. induction IH as [|k ks Hk _ IHks];
      intros tree1 h1 Hh1 Hc1 Hst1; simpl.
    - exists tree1, h1. split_and!; [done|done|apply keeps_names_refl].
    - rewrite <-app_assoc.
      destruct (Hk (fevents ks ++ (exit, d) :: rest) tree1 (Some c :: stack) h1)
        as (c' & h' & -> & Hh' & Hk' & _);
        [done|constructor; [by exists c|done]|].
      destruct (IHks (Some (mkTree (Some c'))) h') as (tree2 & h2 & -> & Hh2 & Hk2).
      + done.
      + by eapply is_Some_keep.
      + by eapply stack_ok_keep.
      + exists tree2, h2. split_and!; [done|done|by eapply keeps_names_trans]. }
  rewrite <-app_assoc. simpl.
  destruct (Hkids tree h1) as (tree2 & h2 & -> & Hh2 & Hk2);
    [done|done|by eapply stack_ok_keep|].
  simpl. exists c, h2.
  split_and!; [done|done|by eapply keeps_names_trans|by eapply is_Some_keep].
Qed.

(** *** The heap that the builder leaves *)

Lemma layout_eq l d ks :
  layout l (Rose d ks) =
  mkNode d (list_to_set (map root ks)) (child_locs (S l) ks) :: flayout (S l) ks.
Proof. reflexivity. Qed.

Lemma length_layout l t : length (layout l t) = tsize t.
Proof.
  revert l. induction t as [d ks IH] using rose_ind'. intros l.
  rewrite layout_eq. simpl. f_equal. generalize (S l).
  induction IH as [|k ks Hk _ IHks]; intros l'; simpl; [done|].
  by rewrite length_app, Hk, IHks.
Qed.

Lemma length_flayout l ks : length (flayout l ks) = fsize ks.
Proof.
  revert l. induction ks as [|k ks IH]; intros l; simpl; [done|].
  by rewrite length_app, length_layout, IH.
Qed.

Lemma root_in_names t : root t ∈ names t.
Proof. destruct t. by left. Qed.

Lemma roots_in_fnames ks x : x ∈ map root ks → x ∈ fnames ks.
Proof.
  induction ks as [|k ks IH]; simpl; [done|].
  intros [->|Hx]%elem_of_cons; apply elem_of_app;
    [left; apply root_in_names|right; by apply IH].
Qed.

Lemma NoDup_fnames_roots ks : NoDup (fnames ks) → NoDup (map root ks).
Proof.
  induction ks as [|k ks IH]; simpl; [constructor|].
  intros (Hk & Hdisj & Hks)%NoDup_app. apply NoDup_cons. split; [|by apply IH].
  intros Hin%roots_in_fnames. by eapply Hdisj, Hin; apply root_in_names.
Qed.

(** Distinct names across the tree make the names of siblings
    distinct. *)
Lemma NoDup_names_siblings t : NoDup (names t) → distinct_siblings t.
Proof.
  induction t as [d ks IH] using rose_ind'. simpl.
  intros [_ Hks]%NoDup_cons. constructor; [by apply NoDup_fnames_roots|].
  induction IH as [|k ks Hk _ IHks]; [constructor|]. simpl in Hks.
  apply NoDup_app in Hks as (H1 & _ & H2). constructor; [by apply Hk|by apply IHks].
Qed.

Lemma node_eta n : mkNode (name n) (children_names n) (children n) = n.
Proof. by destruct n. Qed.

Lemma built_under_forest ks :
  Forall built_under ks →
  ∀ rest tree stk h (p : loc) np,
    h !! p = Some np → NoDup (map root ks) →
    (∀ x, x ∈ map root ks → x ∉ children_names np) →
    Forall distinct_siblings ks →
    ∃ tree',
      TreeBuilder.consume (fevents ks ++ rest) tree (Some p :: stk) h =
      TreeBuilder.consume rest tree' (Some p :: stk)
        (<[p := with_children np (length h) ks]> h ++ flayout (length h) ks).
Proof.
  induction 1 as [|k ks Hk _ IH]; intros rest tree stk h p np Hp Hnd Hfresh Hds.
  - exists tree. simpl. rewrite app_nil_r. f_equal. symmetry.
    apply list_insert_id. rewrite Hp. f_equal. unfold with_children. simpl.
    rewrite app_nil_r, (left_id_L ∅ (∪)). by destruct np.
  - simpl in *. apply NoDup_cons in Hnd as [Hk1 Hnd].
    apply Forall_cons in Hds as [Hdk Hds].
    assert (Hlt : p < length h) by by eapply lookup_lt_Some.
    rewrite <-app_assoc.
    rewrite (Hk _ tree stk h p np Hp) by (try done; apply Hfresh; by left).
    set (np1 := with_children np (length h) [k]).
    set (h1 := <[p := np1]> h ++ layout (length h) k).
    assert (Hp1 : h1 !! p = Some np1).
    { unfold h1. rewrite lookup_app_l by (rewrite length_insert; lia).
      by apply list_lookup_insert_eq. }
    destruct (IH rest (Some (mkTree (Some (length h)))) stk h1 p np1 Hp1 Hnd)
      as [tree' ->]; [|done|].
    { intros x Hx. unfold np1, with_children. simpl.
      rewrite (right_id_L ∅ (∪)). intros [->%elem_of_singleton|Hin]%elem_of_union.
      - done.
      - by eapply Hfresh; [right|]. }
    exists tree'. f_equal. unfold h1.
    rewrite length_app, length_insert, length_layout.
    rewrite insert_app_l by (rewrite length_insert; lia).
    rewrite list_insert_insert_eq, <-app_assoc. do 2 f_equal.
    unfold with_children, np1, with_children. simpl.
    rewrite <-app_assoc. f_equal. set_solver.
Qed.

Lemma built_under_all k : built_under k.
Proof.
  induction k as [d ks IH] using rose_ind'.
  intros rest tree stk h p np Hp Hfresh Hds. inversion_clear Hds as [? ? Hnd Hks].
  simpl in Hfresh.
  assert (Hlt : p < length h) by by eapply lookup_lt_Some.
  change (events_of (Rose d ks) ++ rest)
    with ((enter, d) :: (fevents ks ++ [(exit, d)]) ++ rest).
  cbn [TreeBuilder.consume]. cbn [mbind option_bind].
  rewrite (add_child_new _ _ _ _ Hp Hfresh). cbn [mbind option_bind].
  rewrite <-app_assoc.
  set (np1 := mkNode (name np) ({[d]} ∪ children_names np)
                (children np ++ [length h])).
  set (h1 := <[p := np1]> (h ++ [mkNode d ∅ []])).
  assert (Hc : h1 !! length h = Some (mkNode d ∅ [])).
  { unfold h1. rewrite list_lookup_insert_ne by lia.
    by rewrite lookup_app_r, Nat.sub_diag by lia. }
  destruct (built_under_forest ks IH ([(exit, d)] ++ rest) tree
              (Some p :: stk) h1 (length h) _ Hc Hnd) as [tree' ->];
    [set_solver|done|].
  cbn [app TreeBuilder.consume]. f_equal. unfold h1.
  rewrite length_insert, length_app. cbn [length]. rewrite Nat.add_1_r.
  rewrite list_insert_insert_ne by lia.
  rewrite (insert_app_r_alt h) by lia. rewrite Nat.sub_diag. cbn [insert list_insert].
  rewrite (insert_app_l h) by done. rewrite <-app_assoc, layout_eq.
  cbn [app]. f_equal.
  - f_equal. unfold with_children, np1. simpl. f_equal. set_solver.
  - f_equal. unfold with_children. simpl. f_equal. set_solver.
Qed.

(** The builder, with an empty stack, consumes the walk of [t]: the
    tree is laid out at the end of the heap and its root is the tree
    built. *)
Lemma consume_root t rest tree h :
  distinct_siblings t →
  TreeBuilder.consume (events_of t ++ rest) tree [] h =
  TreeBuilder.consume rest (Some (mkTree (Some (length h)))) []
    (h ++ layout (length h) t).
Proof.
  destruct t as [d ks]. intros Hds. inversion_clear Hds as [? ? Hnd Hks].
  change (events_of (Rose d ks) ++ rest)
    with ((enter, d) :: (fevents ks ++ [(exit, d)]) ++ rest).
  cbn [TreeBuilder.consume Node_init]. cbn [mbind option_bind].
  rewrite <-app_assoc.
  assert (Hc : (h ++ [mkNode d ∅ []]) !! length h = Some (mkNode d ∅ [])).
  { by rewrite lookup_app_r, Nat.sub_diag by lia. }
  destruct (built_under_forest ks (Forall_true _ _ built_under_all)
              ([(exit, d)] ++ rest) tree [] _ (length h) _ Hc Hnd)
    as [tree' ->]; [set_solver|done|].
  cbn [app TreeBuilder.consume]. f_equal.
  rewrite length_app. cbn [length]. rewrite Nat.add_1_r.
  rewrite (insert_app_r_alt h) by lia. rewrite Nat.sub_diag. cbn [insert list_insert].
  rewrite <-app_assoc, layout_eq. cbn [app]. do 2 f_equal.
  unfold with_children. simpl. f_equal. set_solver.
Qed.

(** ** The nodes of a laid out tree *)

Lemma sits_app h l a b :
  sits h l (a ++ b) ↔ sits h l a ∧ sits h (l + length a) b.
Proof.
  split.
  - intros H. split; intros i n Hi.
    + apply H. by apply lookup_app_l_Some.
    + rewrite <-Nat.add_assoc. apply H.
      by rewrite lookup_app_r, Nat.add_comm, Nat.add_sub by lia.
  - intros [Ha Hb] i n Hi. apply lookup_app_Some in Hi as [Hi|[Hle Hi]].
    + by apply Ha.
    + apply Hb in Hi. by replace (l + length a + (i - length a)) with (l + i) in Hi by lia.
Qed.

Lemma sits_cons h l n seg :
  sits h l (n :: seg) ↔ h !! l = Some n ∧ sits h (S l) seg.
Proof.
  change (n :: seg) with ([n] ++ seg). rewrite sits_app. simpl.
  rewrite Nat.add_1_r. split; intros [H1 H2]; split; try done.
  - specialize (H1 0 n eq_refl). by rewrite Nat.add_0_r in H1.
  - intros [|i] n' Hi; simplify_eq/=. by rewrite Nat.add_0_r.
Qed.

Lemma sits_end h seg : sits (h ++ seg) (length h) seg.
Proof. intros i n Hi. by rewrite lookup_app_r, Nat.add_comm, Nat.add_sub by lia. Qed.

(** The names of the laid out nodes are the names of the tree. *)
Lemma layout_names l t : map name (layout l t) = names t.
Proof.
  revert l. induction t as [d ks IH] using rose_ind'. intros l.
  rewrite layout_eq. simpl. f_equal. generalize (S l).
  induction IH as [|k ks Hk _ IHks]; intros l'; simpl; [done|].
  by rewrite map_app, Hk, IHks.
Qed.

Lemma child_locs_bound l ks c :
  c ∈ child_locs l ks → l ≤ c < l + fsize ks.
Proof.
  revert l. induction ks as [|[d ks'] ks IH]; intros l; simpl; [by intros ?%elem_of_nil|].
  intros [->|Hc%IH]%elem_of_cons; lia.
Qed.

(** The children of a laid out node are laid out after it, within the
    tree. *)
Lemma layout_children l t i n c :
  layout l t !! i = Some n → c ∈ children n → l + i < c < l + tsize t.
Proof.
  revert l i. induction t as [d ks IH] using rose_ind'. intros l i.
  rewrite layout_eq. destruct i as [|i]; simpl.
  - intros [= <-]. simpl. intros Hc%child_locs_bound. lia.
  - assert (∀ l' i, flayout l' ks !! i = Some n → c ∈ children n →
                    l' + i < c < l' + fsize ks) as Hf.
    { clear -IH. induction IH as [|k ks Hk _ IHks]; intros l' i; simpl; [done|].
      intros [Hi|[Hle Hi]]%lookup_app_Some Hc.
      - specialize (Hk _ _ Hi Hc). lia.
      - rewrite length_layout in Hle, Hi. specialize (IHks _ _ Hi Hc). lia. }
    intros Hi Hc. specialize (Hf _ _ Hi Hc). lia.
Qed.

Lemma sits_lookup h l t i :
  sits h l (layout l t) → i < tsize t →
  ∃ n, h !! (l + i) = Some n ∧ layout l t !! i = Some n.
Proof.
  intros Hs Hi. destruct (lookup_lt_is_Some_2 (layout l t) i) as [n Hn].
  { by rewrite length_layout. }
  exists n. split; [by apply Hs|done].
Qed.

(** The descendants of the root of a laid out tree are among its
    nodes. *)
Lemma reach_layout_only h l t a l' :
  sits h l (layout l t) → reach h a l' →
  l ≤ a < l + tsize t → l ≤ l' < l + tsize t.
Proof.
  intros Hs. induction 1 as [a _|a n c l' Hn Hc _ IH]; [done|].
  intros Ha. apply IH.
  destruct (sits_lookup h l t (a - l) Hs) as (n' & Hn' & Hl); [lia|].
  replace (l + (a - l)) with a in Hn' by lia. simplify_eq.
  pose proof (layout_children _ _ _ _ _ Hl Hc). lia.
Qed.

(** Every node of a laid out tree is a descendant of its root. *)
Lemma reach_layout_all t :
  ∀ h l i, sits h l (layout l t) → i < tsize t → reach h l (l + i).
Proof.
  induction t as [d ks IH] using rose_ind'. intros h l i.
  rewrite layout_eq. intros [Hl Hs]%sits_cons Hi. simpl in Hi.
  destruct i as [|i].
  { rewrite Nat.add_0_r. apply reach_refl. by eexists. }
  assert (∀ l', sits h l' (flayout l' ks) → ∀ i, i < fsize ks →
            ∃ c, c ∈ child_locs l' ks ∧ reach h c (l' + i)) as Hf.
  { clear -IH. induction IH as [|k ks Hk _ IHks]; intros l' Hs i Hi; simpl in *; [lia|].
    apply sits_app in Hs as [Hs1 Hs2]. rewrite length_layout in Hs2.
    destruct (decide (i < tsize k)) as [Hlt|Hge].
    - exists l'. split; [by left|]. by apply Hk.
    - destruct (IHks _ Hs2 (i - tsize k)) as (c & Hc & Hr); [lia|].
      exists c. split; [by right|].
      by replace (l' + tsize k + (i - tsize k)) with (l' + i) in Hr by lia. }
  destruct (Hf (S l) Hs i) as (c & Hc & Hr); [lia|].
  eapply reach_step; [done|exact Hc|].
  by replace (l + S i) with (S l + i) by lia.
Qed.

(** ** [each_node] *)

Lemma each_node_body fuel h self visited node σ :
  TreeOps.each_node (S fuel) h self visited node σ =
  '(v, σ) ← bind_visited visited σ; each_body fuel h self v node σ.
Proof.
  simpl. unfold each_body, bind_visited.
  destruct (match visited with None => _ | Some _ => _ end) as [[v σ1]|];
    simpl; [|done].
  destruct (TreeOps.or_head self node) as [l|]; simpl; [|done].
  destruct (h !! l) as [nd|]; simpl; [|done].
  destruct (σ1 !! v) as [s|]; simpl; [|done].
  case_decide; [done|]. by destruct (children nd).
Qed.

Lemma each_node_Some fuel h self node v σ s :
  σ !! v = Some s → s ≠ ∅ →
  TreeOps.each_node (S fuel) h self (Some v) node σ =
  each_body fuel h self v node σ.
Proof.
  intros Hv Hs. rewrite each_node_body. unfold bind_visited. rewrite Hv. simpl.
  by case_decide.
Qed.

Lemma each_node_None fuel h self node σ :
  TreeOps.each_node (S fuel) h self None node σ =
  each_body fuel h self (length σ) node (σ ++ [∅]).
Proof. by rewrite each_node_body. Qed.

Lemma each_node_empty fuel h self node v σ :
  σ !! v = Some ∅ →
  TreeOps.each_node (S fuel) h self (Some v) node σ =
  each_body fuel h self (length σ) node (σ ++ [∅]).
Proof.
  intros Hv. rewrite each_node_body. unfold bind_visited. rewrite Hv. simpl.
  by case_decide.
Qed.

Lemma each_loop_ok h fuel self :
  each_ok h fuel →
  ∀ ns v σ s r,
    σ !! v = Some s → s ≠ ∅ →
    TreeOps.each_node_loop (TreeOps.each_node fuel h self) v ns σ = Some r →
    ∃ s' : gset string, r.2 = <[v := s' ∪ s]> σ.
Proof.
  intros IH ns. induction ns as [|n ns IHns]; intros v σ s r Hv Hs Hr; simpl in Hr.
  - injection Hr as <-. exists ∅. simpl.
    by rewrite (left_id_L ∅ (∪)), list_insert_id.
  - destruct (TreeOps.each_node fuel h self (Some v) (Some n) σ)
      as [[r1 σ1]|] eqn:H1; simpl in Hr; [|done].
    destruct (TreeOps.each_node_loop _ v ns σ1) as [[r2 σ2]|] eqn:H2;
      simpl in Hr; [|done].
    injection Hr as <-. simpl.
    assert (Hlt : v < length σ) by by eapply lookup_lt_Some.
    apply (IH _ _ _ _ _ _ Hv Hs) in H1 as [s1 Hσ1]. simpl in Hσ1. subst σ1.
    eapply IHns in H2 as [s2 Hσ2];
      [|by apply list_lookup_insert_eq|set_solver].
    simpl in Hσ2. subst σ2. exists (s2 ∪ s1).
    rewrite list_insert_insert_eq. f_equal. set_solver.
Qed.

Lemma each_body_ok h fuel self :
  each_ok h fuel →
  ∀ v node σ s r,
    σ !! v = Some s →
    each_body fuel h self v node σ = Some r →
    ∃ s' : gset string,
      r.2 = <[v := s' ∪ s]> σ ∧
      ∀ l nd, TreeOps.or_head self node = Some l → h !! l = Some nd →
              name nd ∈ s' ∪ s.
Proof.
  intros IH v node σ s r Hv Hr. unfold each_body in Hr.
  destruct (TreeOps.or_head self node) as [l|]; simpl in Hr; [|done].
  destruct (h !! l) as [nd|] eqn:Hl; simpl in Hr; [|done].
  rewrite Hv in Hr. simpl in Hr.
  assert (Hlt : v < length σ) by by eapply lookup_lt_Some.
  case_decide as Hd.
  - injection Hr as <-. exists ∅. simpl. split.
    + by rewrite (left_id_L ∅ (∪)), list_insert_id.
    + intros l' nd' [= <-] Hl'. rewrite Hl in Hl'. injection Hl' as <-.
      by apply elem_of_union_r.
  - destruct (TreeOps.each_node_loop _ v _ _) as [[rs σ1]|] eqn:H1;
      simpl in Hr; [|done].
    injection Hr as <-. simpl.
    eapply each_loop_ok in H1 as [s1 Hσ1];
      [|done|by apply list_lookup_insert_eq|set_solver].
    simpl in Hσ1. subst σ1. exists (s1 ∪ {[name nd]}). split.
    + rewrite list_insert_insert_eq. f_equal. set_solver.
    + intros l' nd' [= <-] Hl'. rewrite Hl in Hl'. injection Hl' as <-.
      set_solver.
Qed.

Lemma each_ok_all h fuel : each_ok h fuel.
Proof.
  induction fuel as [|fuel IH]; intros self v node σ s r Hv Hs Hr; [done|].
  rewrite (each_node_Some _ _ _ _ _ _ _ Hv Hs) in Hr.
  edestruct each_body_ok as (s' & Hs' & _); [done..|]. by exists s'.
Qed.

Lemma each_loop_laid h self ks :
  Forall (each_laid h self) ks →
  ∀ fuel l v σ s,
    fsize ks ≤ fuel → sits h l (flayout l ks) →
    σ !! v = Some s → s ≠ ∅ →
    NoDup (fnames ks) → (∀ x, x ∈ fnames ks → x ∉ s) →
    TreeOps.each_node_loop (TreeOps.each_node fuel h self) v (child_locs l ks) σ =
    Some (seq l (fsize ks), <[v := list_to_set (fnames ks) ∪ s]> σ).
Proof.
  induction 1 as [|k ks Hk _ IH]; intros fuel l v σ s Hf Hsit Hv Hs Hnd Hfresh;
    simpl in *.
  - by rewrite (left_id_L ∅ (∪)), list_insert_id.
  - apply sits_app in Hsit as [Hs1 Hs2]. rewrite length_layout in Hs2.
    apply NoDup_app in Hnd as (Hnd1 & Hdisj & Hnd2).
    assert (Hlt : v < length σ) by by eapply lookup_lt_Some.
    rewrite (Hk fuel l v σ s) by first [done|lia|set_solver].
    simpl. erewrite (IH fuel (l + tsize k) v); [| |done| | |done|]; cycle 1.
    + lia.
    + by apply list_lookup_insert_eq.
    + set_solver.
    + intros x Hx. specialize (Hfresh x). specialize (Hdisj x). set_solver.
    + simpl. rewrite seq_app, list_insert_insert_eq. do 3 f_equal.
      rewrite list_to_set_app_L. set_solver.
Qed.

Lemma each_body_laid h self d ks :
  Forall (each_laid h self) ks →
  ∀ fuel l v σ s node,
    TreeOps.or_head self node = Some l →
    fsize ks ≤ fuel → sits h l (layout l (Rose d ks)) →
    σ !! v = Some s →
    NoDup (names (Rose d ks)) → (∀ x, x ∈ names (Rose d ks) → x ∉ s) →
    each_body fuel h self v node σ =
    Some (seq l (tsize (Rose d ks)),
          <[v := list_to_set (names (Rose d ks)) ∪ s]> σ).
Proof.
  intros IH fuel l v σ s node Hnode Hf Hsit Hv Hnd Hfresh.
  rewrite layout_eq in Hsit. apply sits_cons in Hsit as [Hl Hsit].
  simpl in Hnd, Hfresh. apply NoDup_cons in Hnd as [Hd Hnd].
  assert (Hlt : v < length σ) by by eapply lookup_lt_Some.
  unfold each_body. rewrite Hnode. simpl. rewrite Hl. simpl. rewrite Hv. simpl.
  rewrite decide_False by (apply Hfresh; by left).
  erewrite (each_loop_laid h self ks IH fuel (S l) v);
    [|done|done|by apply list_lookup_insert_eq|set_solver|done|].
  - simpl. rewrite list_insert_insert_eq. do 3 f_equal. set_solver.
  - intros x Hx. specialize (Hfresh x). set_solver.
Qed.

Lemma each_laid_all h self t : each_laid h self t.
Proof.
  induction t as [d ks IH] using rose_ind'.
  intros fuel l v σ s Hf Hsit Hv Hs Hnd Hfresh.
  destruct fuel as [|fuel]; [simpl in Hf; lia|].
  rewrite (each_node_Some _ _ _ _ _ _ _ Hv Hs).
  apply each_body_laid; try done. simpl in Hf. lia.
Qed.

(** [each_node()] on a laid out tree of distinct names yields every
    node once, in the order of the heap. *)
Lemma each_node_root h l t fuel σ :
  tsize t ≤ fuel → sits h l (layout l t) → NoDup (names t) →
  TreeOps.each_node fuel h (mkTree (Some l)) None None σ =
  Some (seq l (tsize t), σ ++ [list_to_set (names t)]).
Proof.
  intros Hf Hsit Hnd. destruct t as [d ks].
  destruct fuel as [|fuel]; [simpl in Hf; lia|].
  rewrite each_node_None.
  rewrite (each_body_laid _ _ d ks (Forall_true _ _ (each_laid_all _ _))
             fuel l (length σ) (σ ++ [∅]) ∅ None);
    [|done|simpl in Hf; lia|done|by apply list_lookup_middle|done|set_solver].
  do 2 f_equal. rewrite (right_id_L ∅ (∪)).
  by rewrite (insert_app_r_alt σ) by lia; rewrite Nat.sub_diag.
Qed.

(** ** [bigrams] *)

Lemma bigrams_step fuel h self l nd :
  h !! l = Some nd →
  TreeOps.bigrams (S fuel) h self (Some l) =
  TreeOps.bigrams_loop (TreeOps.bigrams fuel h self) h nd (children nd).
Proof.
  intros Hl. simpl. rewrite Hl. simpl. by destruct (children nd).
Qed.

(** [bigrams()], with no argument, starts at the head of the tree. *)
Lemma bigrams_head fuel h l :
  TreeOps.bigrams fuel h (mkTree (Some l)) None =
  TreeOps.bigrams fuel h (mkTree (Some l)) (Some l).
Proof. by destruct fuel. Qed.

Lemma bigrams_loop_parts rec h nd ns out :
  TreeOps.bigrams_loop rec h nd ns = Some out ↔
  ∃ parts, Forall2 (bigrams_part rec h nd) ns parts ∧ out = concat parts.
Proof.
  revert out. induction ns as [|c ns IH]; intros out; simpl.
  - split.
    + intros [= <-]. exists []. by split; [constructor|].
    + intros (parts & ->%Forall2_nil_inv_l & ->). done.
  - split.
    + destruct (rec (Some c)) as [outc|] eqn:Hc; simpl; [|done].
      destruct (h !! c) as [nc|] eqn:Hnc; simpl; [|done].
      destruct (TreeOps.bigrams_loop rec h nd ns) as [out'|]; simpl; [|done].
      intros [= <-]. destruct (proj1 (IH out') eq_refl) as (parts & HF & ->).
      exists ((outc ++ [(name nd, name nc)]) :: parts). split.
      * constructor; [by exists nc, outc|done].
      * simpl. by rewrite <-app_assoc.
    + intros (parts & HF & ->).
      apply Forall2_cons_inv_l in HF as (part & parts' & (nc & outc & Hnc & Hc & ->) & HF & ->).
      rewrite Hc, Hnc. simpl.
      rewrite (proj2 (IH (concat parts'))) by by exists parts'.
      simpl. by rewrite <-app_assoc.
Qed.

Lemma bigrams_part_mono (rec1 rec2 : option loc → option (list (string * string)))
    h nd c part :
  (∀ n out, rec1 n = Some out → rec2 n = Some out) →
  bigrams_part rec1 h nd c part → bigrams_part rec2 h nd c part.
Proof. intros Hm (nc & outc & ? & ? & ?). exists nc, outc. auto. Qed.

Lemma bigrams_mono fuel h self node out :
  TreeOps.bigrams fuel h self node = Some out →
  TreeOps.bigrams (S fuel) h self node = Some out.
Proof.
  revert node out. induction fuel as [|fuel IH]; intros node out; [done|].
  intros H. simpl in H |- *.
  destruct (TreeOps.or_head self node) as [l|]; simpl in *; [|done].
  destruct (h !! l) as [nd|]; simpl in *; [|done].
  case_bool_decide; [|done].
  apply bigrams_loop_parts in H as (parts & HF & ->).
  apply bigrams_loop_parts. exists parts. split; [|done].
  eapply Forall2_impl; [done|]. intros c part. by apply bigrams_part_mono.
Qed.

Lemma snapshot_lookup fuel h l t :
  snapshot fuel h l = Some t → ∃ n, h !! l = Some n ∧ name n = root t.
Proof.
  destruct fuel as [|fuel]; [done|]. simpl.
  destruct (h !! l) as [n|]; simpl; [|done].
  destruct (mapM _ _); simpl; [|done]. intros [= <-]. by exists n.
Qed.

(** [bigrams] returns on a heap that holds a tree. *)
Lemma bigrams_total fuel h self l t :
  snapshot fuel h l = Some t →
  is_Some (TreeOps.bigrams fuel h self (Some l)).
Proof.
  revert l t. induction fuel as [|fuel IH]; intros l t; [done|].
  intros H. simpl in H.
  destruct (h !! l) as [nd|] eqn:Hl; simpl in H; [|done].
  destruct (mapM _ _) as [ks|] eqn:Hks; simpl in H; [|done].
  rewrite (bigrams_step _ _ _ _ _ Hl). apply mapM_Some in Hks. clear H.
  induction Hks as [|c k cs ks Hc _ IHks]; simpl; [done|].
  destruct (IH _ _ Hc) as [outc ->]. simpl.
  destruct (snapshot_lookup _ _ _ _ Hc) as (nc & -> & _). simpl.
  by destruct IHks as [out' ->].
Qed.

(** Every edge below the node is yielded after the bigrams of the
    subtree of its child, which [bigrams] yields whole. *)
Lemma bigrams_covers h self l p :
  reach h l p →
  ∀ fuel out np (c : loc) nc,
    TreeOps.bigrams fuel h self (Some l) = Some out →
    h !! p = Some np → c ∈ children np → h !! c = Some nc →
    ∃ outc pre post,
      TreeOps.bigrams fuel h self (Some c) = Some outc ∧
      out = pre ++ outc ++ (name np, name nc) :: post.
Proof.
  induction 1 as [l _|l n c0 p Hl Hc0 _ IH]; intros fuel out np c nc Hout Hp Hc Hnc.
  - destruct fuel as [|fuel]; [done|].
    rewrite (bigrams_step _ _ _ _ _ Hp) in Hout.
    apply bigrams_loop_parts in Hout as (parts & HF & ->).
    apply list_elem_of_lookup in Hc as [i Hi].
    destruct (Forall2_lookup_l _ _ _ _ _ HF Hi) as (part & Hpart & (nc' & outc & ? & Hrec & ->)).
    simplify_eq. exists outc, (concat (take i parts)), (concat (drop (S i) parts)).
    split; [by apply bigrams_mono|].
    rewrite <-(take_drop_middle _ _ _ Hpart) at 1.
    by rewrite concat_app, concat_cons, <-!app_assoc.
  - destruct fuel as [|fuel]; [done|].
    rewrite (bigrams_step _ _ _ _ _ Hl) in Hout.
    apply bigrams_loop_parts in Hout as (parts & HF & ->).
    apply list_elem_of_lookup in Hc0 as [i Hi].
    destruct (Forall2_lookup_l _ _ _ _ _ HF Hi) as (part & Hpart & (nc0 & out0 & ? & Hrec & ->)).
    destruct (IH _ _ _ _ _ Hrec Hp Hc Hnc) as (outc & pre & post & Hoc & ->).
    exists outc, (concat (take i parts) ++ pre),
      (post ++ (name n, name nc0) :: concat (drop (S i) parts)).
    split; [by apply bigrams_mono|].
    rewrite <-(take_drop_middle _ _ _ Hpart) at 1.
    rewrite concat_app, concat_cons, <-!app_assoc. simpl.
    by rewrite <-?app_assoc.
Qed.

Lemma elem_of_concat {A} (x : A) (ls : list (list A)) :
  x ∈ concat ls → ∃ l, x ∈ l ∧ l ∈ ls.
Proof.
  induction ls as [|l ls IH]; simpl; [by intros ?%elem_of_nil|].
  intros [Hx|Hx]%elem_of_app.
  - exists l. split; [done|by left].
  - destruct (IH Hx) as (l' & ? & ?). exists l'. split; [done|by right].
Qed.

(** [bigrams] yields edges only. *)
Lemma bigrams_sound h self fuel :
  ∀ l out e,
    TreeOps.bigrams fuel h self (Some l) = Some out → e ∈ out →
    edge_below h l e.
Proof.
  induction fuel as [|fuel IH]; intros l out e Hout He; [done|].
  destruct (h !! l) as [nd|] eqn:Hl; [|by simpl in Hout; rewrite Hl in Hout].
  rewrite (bigrams_step _ _ _ _ _ Hl) in Hout.
  apply bigrams_loop_parts in Hout as (parts & HF & ->).
  apply elem_of_concat in He as (part & He & Hpart).
  apply list_elem_of_lookup in Hpart as [i Hi].
  destruct (Forall2_lookup_r _ _ _ _ _ HF Hi) as (c & Hc & (nc & outc & Hnc & Hrec & ->)).
  apply list_elem_of_lookup_2 in Hc.
  apply elem_of_app in He as [He|He%list_elem_of_singleton].
  - destruct (IH _ _ _ Hrec He) as (p & c' & np & nc' & Hr & Hp & Hc' & Hnc' & ->).
    exists p, c', np, nc'. split_and!; try done. by eapply reach_step.
  - subst e. exists l, c, nd, nc. split_and!; try done.
    apply reach_refl. by eexists.
Qed.

(** * Examples *)

Example split_terms :
  Str.split "  v=spf1  include:a.test ~all " = ["v=spf1"; "include:a.test"; "~all"].
Proof. reflexivity. Qed.

Example split_on_fields :
  Str.split_on ":" "include:a:b" = ["include"; "a"; "b"]
  ∧ Str.split_on ":" "all" = ["all"]
  ∧ Str.split_on ":" EmptyString = [EmptyString].
Proof. by split_and!. Qed.

Example strip_quotes :
  Str.strip (String Str.dquote EmptyString) (quoted "v=spf1 -all") = "v=spf1 -all".
Proof. reflexivity. Qed.

Example is_spf_quoted :
  Resolver.is_spf (quoted "v=spf1 include:a.test ~all") = true
  ∧ Resolver.is_spf (quoted "google-site-verification=abc") = false.
Proof. by split. Qed.

(** The record is split with its quotes on: an include term that ends
    the record keeps the closing quote in its name. *)
Example closing_quote_kept :
  include_names (λ _, Some [quoted "v=spf1 include:a.test"]) "d.test"
  = [String.append "a.test" (String Str.dquote EmptyString)].
Proof. reflexivity. Qed.

(** The scenario of [example.com]: the tree that [build] returns has
    the two edges of the digraph. *)
Example sample_digraph :
  ∃ tree h σ,
    TreeBuilder.build sample_query 3 "example.com" [] [] [] =
      Some ((Some tree, [], h), σ) ∧
    TreeOps.bigrams 3 h tree None =
      Some [("_spf.google.com", "_netblocks.google.com");
            ("example.com", "_spf.google.com")].
Proof. eexists _, _, _. split; vm_compute; reflexivity. Qed.

(** * The claims *)

(** ** The resolver *)

(** C1: for every domain and every behaviour of the TXT lookup, the
    events that [resolve(domain)] produces are correctly parenthesized:
    there are as many [enter] as [exit] events, no prefix has more [exit]
    than [enter] events, and between the [enter] and the [exit] of the
    domain stand, in the order of the record, the complete walks of the
    included domains, each of them nested in the same way.  The call
    returns, with fuel above the size of the zone, whenever the domains
    that include others are within a finite zone. *)
Theorem resolve_parenthesized query fuel domain σ :
  (∀ evs σ',
     Resolver.__call__ query fuel domain None σ = Some (evs, σ') →
     count enter evs = count exit evs ∧
     (∀ n, count exit (take n evs) ≤ count enter (take n evs)) ∧
     ∃ ks, evs = (enter, domain) :: fevents ks ++ [(exit, domain)] ∧
           sublist (map root ks) (include_names query domain) ∧
           Forall (follows query) ks) ∧
  (∀ zone : gset string,
     (∀ d, d ∉ zone → include_terms query d = []) → size zone < fuel →
     is_Some (Resolver.__call__ query fuel domain None σ)).
Proof.
  split.
  - intros evs σ' Hr.
    apply call_root in Hr as (t & Ht & He & _ & _ & Hf). simpl in He. subst evs.
    split_and!.
    + apply events_of_count.
    + apply events_of_prefix.
    + destruct t as [d ks]. simpl in Ht. subst d.
      inversion_clear Hf as [? ? Hsub Hks]. by exists ks.
  - intros zone Hz Hsz. by apply (call_terminates query zone).
Qed.

Lemma resolve_parenthesized_witness :
  let evs := [(enter, "example.com"); (enter, "_spf.google.com");
              (enter, "_netblocks.google.com"); (exit, "_netblocks.google.com");
              (exit, "_spf.google.com"); (exit, "example.com")] in
  count enter evs = count exit evs ∧
  is_Some (Resolver.__call__ sample_query 3 "example.com" None []).
Proof.
  split.
  - eapply (proj1 (resolve_parenthesized sample_query 3 "example.com" [])).
    vm_compute. reflexivity.
  - apply (proj2 (resolve_parenthesized sample_query 3 "example.com" [])
             {[ "example.com"; "_spf.google.com" ]}); [|vm_compute; lia].
    intros d Hd. unfold include_terms, sample_query.
    destruct (String.eqb_spec d "example.com") as [->|_]; [set_solver|].
    destruct (String.eqb_spec d "_spf.google.com") as [->|_]; [set_solver|done].
Defined.

Lemma after_include record :
  Resolver.is_include record = true → Str.after ":" record = Str.drop 8 record.
Proof.
  intros H%StrFacts.startswith_app. simpl String.length in H.
  revert H. generalize (Str.drop 8 record). by intros r ->.
Qed.

Lemma includes_in_turn rec records v σ evs σ' :
  Forall (λ r, Resolver.is_include r = true) records →
  Resolver.includes rec records v σ = Some (evs, σ') →
  resolved_in_turn rec v (map between_colons records) σ evs σ'.
Proof.
  intros Hrec. revert σ evs σ'.
  induction Hrec as [|record records Hi _ IH]; intros σ evs σ' Hr; simpl in Hr.
  - injection Hr as <- <-. constructor.
  - rewrite (StrFacts.include_field _ Hi) in Hr.
    rewrite <-(after_include _ Hi) in Hr. fold (between_colons record) in Hr.
    simpl in Hr.
    destruct (rec (between_colons record) (Some v) σ) as [[e1 σ1]|] eqn:H1;
      simpl in Hr; [|done].
    destruct (Resolver.includes rec records v σ1) as [[e2 σ2]|] eqn:H2;
      simpl in Hr; [|done].
    injection Hr as <- <-. simpl. econstructor; [done|by apply IH].
Qed.

Lemma find_first_spf res : first_spf res (find Resolver.is_spf res "").
Proof.
  destruct (StrFacts.find_first Resolver.is_spf res "" _ eq_refl)
    as [(l1 & l2 & ? & ? & ?)|[? ?]]; [left; by exists l1, l2|by right].
Qed.

(** C2, as the code has it: on a successful TXT lookup the resolver
    takes the first record whose text, stripped of surrounding quotes,
    starts with [v=spf1] (the empty string when there is none), splits it
    at white space and, for every term that starts with [include:],
    resolves the text between the first colon and the next colon (or the
    end of the term), yielding all the events of one include before it
    turns to the next. *)
Theorem includes_resolved_between_colons :
  includes_resolved_with between_colons.
Proof.
  intros query fuel domain visited σ v σ0 s answer evs σ' Hbind Hv Hd Hq Hr record.
  split; [apply find_first_spf|].
  rewrite call_body, Hbind in Hr. simpl in Hr. unfold body in Hr.
  rewrite Hv in Hr. simpl in Hr. rewrite decide_False in Hr by done.
  destruct (Resolver.includes _ _ v _) as [[inner σ1]|] eqn:Hi; simpl in Hr; [|done].
  injection Hr as <- <-. exists inner. split; [done|].
  apply includes_in_turn in Hi; [|apply include_terms_are_includes].
  unfold include_terms in Hi. by rewrite Hq in Hi.
Qed.

Lemma includes_resolved_between_colons_witness :
  resolved_in_turn (Resolver.__call__ colon_query 1) 0 ["a"] [{[ "d.test" ]} ∪ ∅]
    [(enter, "a"); (exit, "a")] [{[ "a" ]} ∪ ({[ "d.test" ]} ∪ ∅)].
Proof.
  destruct (includes_resolved_between_colons colon_query 1 "d.test" None []
              0 [∅] ∅ ["v=spf1 include:a:b"]
              [(enter, "d.test"); (enter, "a"); (exit, "a"); (exit, "d.test")]
              [{[ "a" ]} ∪ ({[ "d.test" ]} ∪ ∅)])
    as [_ (inner & Hevs & Hturn)].
  - reflexivity.
  - reflexivity.
  - apply not_elem_of_empty.
  - reflexivity.
  - vm_compute. reflexivity.
  - injection Hevs as Hevs.
    change [(enter, "a"); (exit, "a"); (exit, "d.test")]
      with ([(enter, "a"); (exit, "a")] ++ [(exit, "d.test")]) in Hevs.
    apply app_inj_tail in Hevs as [<- _]. exact Hturn.
Defined.

(** C2 as stated fails: the name that the resolver takes from the term
    [include:a:b] is [a], not the text [a:b] after the colon. *)
Lemma includes_resolved_after_colon_fails :
  ¬ includes_resolved_with after_colon.
Proof.
  intros H.
  destruct (H colon_query 1 "d.test" None [] 0 [∅] ∅ ["v=spf1 include:a:b"]
              [(enter, "d.test"); (enter, "a"); (exit, "a"); (exit, "d.test")]
              [{[ "a" ]} ∪ ({[ "d.test" ]} ∪ ∅)])
    as [_ (inner & Hevs & Hturn)].
  - reflexivity.
  - reflexivity.
  - apply not_elem_of_empty.
  - reflexivity.
  - vm_compute. reflexivity.
  - injection Hevs as Hevs.
    change [(enter, "a"); (exit, "a"); (exit, "d.test")]
      with ([(enter, "a"); (exit, "a")] ++ [(exit, "d.test")]) in Hevs.
    apply app_inj_tail in Hevs as [<- _].
    inversion Hturn as [|nm nms σ e1 σ1 e2 σ2 Hcall Hrest]; subst.
    vm_compute in Hcall. injection Hcall as <- _.
    inversion Hrest; subst. discriminate.
Qed.

Lemma includes_single rec records nm v σ :
  Forall (λ r, Resolver.is_include r = true) records →
  omap field1 records = [nm] →
  Resolver.includes rec records v σ =
  '(evs, σ) ← rec nm (Some v) σ; Some (evs ++ [], σ).
Proof.
  intros Hrec Hnm. destruct Hrec as [|record records Hi Hrec]; [done|].
  pose proof (StrFacts.include_field _ Hi) as Hf. fold (field1 record) in Hf.
  simpl in Hnm. rewrite Hf in Hnm. injection Hnm as <- Hnm.
  destruct Hrec as [|record' records Hi' _].
  - simpl. fold (field1 record). rewrite Hf. simpl.
    by destruct (rec _ _ _) as [[??]|].
  - pose proof (StrFacts.include_field _ Hi') as Hf'.
    fold (field1 record') in Hf'. simpl in Hnm. by rewrite Hf' in Hnm.
Qed.

Lemma body_no_includes query fuel domain v σ s :
  σ !! v = Some s → domain ∉ s → include_terms query domain = [] →
  body query fuel domain v σ =
  Some ([(enter, domain); (exit, domain)], <[v := {[domain]} ∪ s]> σ).
Proof.
  intros Hv Hd Hi. unfold body. rewrite Hv. simpl.
  rewrite decide_False by done. by rewrite Hi.
Qed.

Lemma no_spf_no_includes query domain :
  (query domain = None ∨
   ∃ answer, query domain = Some answer ∧
             Forall (λ x, Resolver.is_spf (Resolver.to_text x) = false) answer) →
  include_terms query domain = [].
Proof.
  unfold include_terms. intros [->|(answer & -> & Hno)]; [done|].
  rewrite StrFacts.find_none; [done|]. by apply Forall_map.
Qed.

(** C3: when the TXT lookup of a domain [D] that is not in the visited
    set fails with a DNS exception, or returns no SPF record, the call
    does not fail: [resolve(D)] yields the two events [(enter, D)] and
    [(exit, D)] and no other, and [build(D)] returns a tree of the single
    node [D], without children. *)
Theorem failed_lookup_single_node query fuel D visited σ v σ0 s h :
  bind_visited visited σ = Some (v, σ0) →
  σ0 !! v = Some s → D ∉ s →
  (query D = None ∨
   ∃ answer, query D = Some answer ∧
             Forall (λ x, Resolver.is_spf (Resolver.to_text x) = false) answer) →
  Resolver.__call__ query (S fuel) D visited σ =
    Some ([(enter, D); (exit, D)], <[v := {[D]} ∪ s]> σ0) ∧
  TreeBuilder.build query (S fuel) D [] h σ =
    Some ((Some (mkTree (Some (length h))), [], h ++ [mkNode D ∅ []]),
          σ ++ [{[D]}]).
Proof.
  intros Hbind Hv Hd Hno%no_spf_no_includes. split.
  - rewrite call_body, Hbind. simpl. by apply body_no_includes.
  - unfold TreeBuilder.build. rewrite call_None.
    rewrite (body_no_includes _ _ _ _ _ ∅);
      [|by apply list_lookup_middle|apply not_elem_of_empty|done].
    simpl. do 2 f_equal.
    rewrite (insert_app_r_alt σ) by lia. rewrite Nat.sub_diag. simpl.
    by rewrite (right_id_L ∅ (∪)).
Qed.

Lemma failed_lookup_single_node_witness :
  Resolver.__call__ sample_query 1 "_netblocks.google.com" (Some 0)
    [{[ "example.com" ]}] =
    Some ([(enter, "_netblocks.google.com"); (exit, "_netblocks.google.com")],
          [{[ "_netblocks.google.com" ]} ∪ {[ "example.com" ]}]) ∧
  TreeBuilder.build sample_query 1 "_netblocks.google.com" [] []
    [{[ "example.com" ]}] =
    Some ((Some (mkTree (Some 0)), [],
           [mkNode "_netblocks.google.com" ∅ []]),
          [{[ "example.com" ]}; {[ "_netblocks.google.com" ]}]).
Proof.
  apply (failed_lookup_single_node sample_query 0 "_netblocks.google.com"
           (Some 0) [{[ "example.com" ]}] 0 [{[ "example.com" ]}]
           {[ "example.com" ]} []).
  - vm_compute. reflexivity.
  - reflexivity.
  - apply (bool_decide_unpack _). vm_compute. exact I.
  - left. reflexivity.
Defined.

Lemma body_visited query fuel domain v σ s :
  σ !! v = Some s → domain ∈ s → body query fuel domain v σ = Some ([], σ).
Proof.
  intros Hv Hd. unfold body. rewrite Hv. simpl. by rewrite decide_True.
Qed.

Lemma body_single query fuel domain nm v σ s :
  σ !! v = Some s → domain ∉ s → include_names query domain = [nm] →
  body query fuel domain v σ =
  '(evs, σ) ← Resolver.__call__ query fuel nm (Some v)
                 (<[v := {[domain]} ∪ s]> σ);
  Some ((enter, domain) :: evs ++ [(exit, domain)], σ).
Proof.
  intros Hv Hd Hi. unfold body. rewrite Hv. simpl.
  rewrite decide_False by done.
  rewrite (includes_single _ _ nm);
    [|apply include_terms_are_includes|done].
  destruct (Resolver.__call__ _ _ _ _ _) as [[evs σ1]|]; simpl; [|done].
  by rewrite app_nil_r.
Qed.

(** The cycle guard, where the names that [__call__] takes from the
    records of [A] and [B] are [B] and [A]: [resolve(A)] terminates, the
    second visit of [A] yields no event at all, and in the tree that
    [build(A)] returns [A] has the single child [B], which has no
    children. *)
Lemma cycle_terminates query A B fuel σ h :
  A ≠ B →
  include_names query A = [B] → include_names query B = [A] →
  3 ≤ fuel →
  Resolver.__call__ query fuel A None σ =
    Some ([(enter, A); (enter, B); (exit, B); (exit, A)], σ ++ [{[A; B]}]) ∧
  (∀ f v σ1 s, σ1 !! v = Some s → A ∈ s →
     Resolver.__call__ query (S f) A (Some v) σ1 = Some ([], σ1)) ∧
  TreeBuilder.build query fuel A [] h σ =
    Some ((Some (mkTree (Some (length h))), [],
           h ++ [mkNode A {[B]} [S (length h)]; mkNode B ∅ []]),
          σ ++ [{[A; B]}]).
Proof.
  intros Hne HA HB Hfuel.
  assert (Hre : ∀ f v σ1 s, σ1 !! v = Some s → A ∈ s →
            Resolver.__call__ query (S f) A (Some v) σ1 = Some ([], σ1)).
  { intros f v σ1 s Hv Hin. rewrite (call_Some _ _ _ _ _ _ Hv) by set_solver.
    by eapply body_visited. }
  assert (Hcall : Resolver.__call__ query fuel A None σ =
            Some ([(enter, A); (enter, B); (exit, B); (exit, A)],
                  σ ++ [{[A; B]}])).
  { destruct fuel as [|[|[|fuel]]]; try lia.
    rewrite call_None.
    rewrite (body_single _ _ _ B _ _ ∅);
      [|by apply list_lookup_middle|apply not_elem_of_empty|done].
    assert (Hlen : length σ < length (σ ++ [∅ : gset string])).
    { rewrite length_app. simpl. lia. }
    rewrite (call_Some _ _ _ _ _ ({[A]} ∪ ∅));
      [|by apply list_lookup_insert_eq|set_solver].
    rewrite (body_single _ _ _ A _ _ ({[A]} ∪ ∅));
      [|by apply list_lookup_insert_eq|set_solver|done].
    rewrite (Hre _ _ _ ({[B]} ∪ ({[A]} ∪ ∅)));
      [|by rewrite list_lookup_insert_eq by by rewrite length_insert|set_solver].
    simpl. do 2 f_equal. rewrite list_insert_insert_eq.
    rewrite (insert_app_r_alt σ) by lia. rewrite Nat.sub_diag. simpl.
    do 2 f_equal. set_solver. }
  split_and!; [done|done|].
  unfold TreeBuilder.build. rewrite Hcall. simpl.
  pose proof (consume_root (Rose A [Rose B []]) [] None h) as Hc.
  simpl in Hc. rewrite Hc.
  - simpl. by rewrite (right_id_L ∅ (∪)).
  - constructor; [apply NoDup_singleton|].
    constructor; [|constructor]. constructor; constructor.
Qed.

Lemma cycle_terminates_witness :
  Resolver.__call__ cycle_query 3 "a.test" None [] =
    Some ([(enter, "a.test"); (enter, "b.test");
           (exit, "b.test"); (exit, "a.test")],
          [{[ "a.test"; "b.test" ]}]) ∧
  TreeBuilder.build cycle_query 3 "a.test" [] [] [] =
    Some ((Some (mkTree (Some 0)), [],
           [mkNode "a.test" {[ "b.test" ]} [1]; mkNode "b.test" ∅ []]),
          [{[ "a.test"; "b.test" ]}]).
Proof.
  destruct (cycle_terminates cycle_query "a.test" "b.test" 3 [] [])
    as (H1 & _ & H2).
  - discriminate.
  - reflexivity.
  - reflexivity.
  - lia.
  - split; [exact H1|exact H2].
Defined.

(** C4: [a.test] includes [b.test] and [b.test] includes [a.test], with
    the include term at the end of both records.  [resolve(a.test)]
    terminates, but the name it takes from the record of [a.test] is
    [b.test] with the closing quote of the rdata text, which [is_spf]
    strips and the split of the terms does not: [b.test] is never
    entered, [a.test] is never visited again, and in the tree that
    [build(a.test)] returns the single child of [a.test] is not
    [b.test]. *)
Theorem cycle_closing_quote fuel :
  spec_includes quote_cycle_query "a.test" "b.test" ∧
  spec_includes quote_cycle_query "b.test" "a.test" ∧
  include_names quote_cycle_query "a.test" = [b_test_quote] ∧
  Resolver.__call__ quote_cycle_query (S (S fuel)) "a.test" None [] =
    Some ([(enter, "a.test"); (enter, b_test_quote);
           (exit, b_test_quote); (exit, "a.test")],
          [{[ "a.test"; b_test_quote ]}]) ∧
  TreeBuilder.build quote_cycle_query (S (S fuel)) "a.test" [] [] [] =
    Some ((Some (mkTree (Some 0)), [],
           [mkNode "a.test" {[ b_test_quote ]} [1];
            mkNode b_test_quote ∅ []]),
          [{[ "a.test"; b_test_quote ]}]) ∧
  b_test_quote ≠ "b.test" ∧
  "b.test" ∉ entered [(enter, "a.test"); (enter, b_test_quote);
                      (exit, b_test_quote); (exit, "a.test")].
Proof.
  assert (Hcall :
    Resolver.__call__ quote_cycle_query (S (S fuel)) "a.test" None [] =
      Some ([(enter, "a.test"); (enter, b_test_quote);
             (exit, b_test_quote); (exit, "a.test")],
            [{[ "a.test"; b_test_quote ]}])).
  { rewrite call_None.
    rewrite (body_single _ _ _ b_test_quote _ _ ∅);
      [|done|apply not_elem_of_empty|done].
    rewrite (call_Some _ _ _ _ _ ({[ "a.test" ]} ∪ ∅));
      [|done|set_solver].
    rewrite (body_no_includes _ _ _ _ _ ({[ "a.test" ]} ∪ ∅));
      [|done| |done].
    - simpl. do 3 f_equal; set_solver.
    - apply (bool_decide_unpack _). vm_compute. exact I. }
  split_and!.
  - eexists. split; [reflexivity|]. vm_compute. set_solver.
  - eexists. split; [reflexivity|]. vm_compute. set_solver.
  - reflexivity.
  - done.
  - unfold TreeBuilder.build. rewrite Hcall. simpl.
    pose proof (consume_root (Rose "a.test" [Rose b_test_quote []])
                  [] None []) as Hc.
    simpl in Hc. rewrite Hc.
    + simpl. by rewrite (right_id_L ∅ (∪)).
    + constructor; [apply NoDup_singleton|].
      constructor; [|constructor]. constructor; constructor.
  - discriminate.
  - apply (bool_decide_unpack _). vm_compute. exact I.
Qed.

(** ** The tree operations *)

Lemma chain3_eq A B C h :
  chain3 A B C h =
  Some (mkTree (Some (length h)), h ++ chain3_nodes A B C (length h)).
Proof.
  unfold chain3, Node_init.
  rewrite (add_child_new _ _ _ (mkNode A ∅ []));
    [|by rewrite lookup_app_r, Nat.sub_diag by lia|set_solver].
  cbn [mbind option_bind name children children_names].
  rewrite !length_app. cbn [length app]. rewrite Nat.add_1_r, <-app_assoc.
  cbn [app]. rewrite (insert_app_r_alt h) by lia. rewrite Nat.sub_diag.
  cbn [insert list_insert].
  rewrite (add_child_new _ _ _ (mkNode B ∅ [])); [| |set_solver].
  2:{ rewrite lookup_app_r by lia.
      by replace (S (length h) - length h) with 1 by lia. }
  cbn [mbind option_bind name children children_names].
  rewrite !length_app. cbn [length app]. rewrite <-app_assoc. cbn [app].
  rewrite (insert_app_r_alt h) by lia.
  replace (S (length h) - length h) with 1 by lia.
  cbn [insert list_insert]. unfold chain3_nodes.
  rewrite !(right_id_L ∅ (∪)).
  by replace (length h + 2) with (S (S (length h))) by lia.
Qed.

Lemma chain3_lookup A B C h :
  let h' := h ++ chain3_nodes A B C (length h) in
  h' !! length h = Some (mkNode A {[B]} [S (length h)]) ∧
  h' !! S (length h) = Some (mkNode B {[C]} [S (S (length h))]) ∧
  h' !! S (S (length h)) = Some (mkNode C ∅ []).
Proof.
  pose proof (sits_end h (chain3_nodes A B C (length h))) as Hs.
  pose proof (Hs 0 _ eq_refl) as H0. pose proof (Hs 1 _ eq_refl) as H1.
  pose proof (Hs 2 _ eq_refl) as H2.
  rewrite Nat.add_0_r in H0. rewrite Nat.add_1_r in H1.
  replace (length h + 2) with (S (S (length h))) in H2 by lia. done.
Qed.

Lemma bigrams_chain3 A B C h :
  TreeOps.bigrams 3 (h ++ chain3_nodes A B C (length h))
    (mkTree (Some (length h))) None =
  Some [(B, C); (A, B)].
Proof.
  destruct (chain3_lookup A B C h) as (Ha & Hb & Hc).
  rewrite bigrams_head, (bigrams_step _ _ _ _ _ Ha).
  cbn [children TreeOps.bigrams_loop].
  rewrite (bigrams_step _ _ _ _ _ Hb). cbn [children TreeOps.bigrams_loop].
  rewrite (bigrams_step _ _ _ _ _ Hc). cbn [children TreeOps.bigrams_loop].
  cbn [mbind option_bind]. rewrite Hc. cbn [mbind option_bind].
  rewrite Hb. done.
Qed.

(** C5: on every heap that holds a tree, [bigrams()] yields a finite
    sequence of pairs of names, one for every edge from a parent to a
    child and no other, in post-order: the edge to a child comes right
    after all the bigrams of the subtree of that child.  On the chain
    [A -> B -> C] the pairs are [(A, B)] and [(B, C)]. *)
Theorem bigrams_postorder fuel h l :
  (∀ t, snapshot fuel h l = Some t →
     let self := mkTree (Some l) in
     ∃ out,
       TreeOps.bigrams fuel h self None = Some out ∧
       (∀ (p c : loc) np nc,
          reach h l p → h !! p = Some np → c ∈ children np →
          h !! c = Some nc →
          ∃ outc pre post,
            TreeOps.bigrams fuel h self (Some c) = Some outc ∧
            out = pre ++ outc ++ (name np, name nc) :: post) ∧
       (∀ e, e ∈ out → edge_below h l e)) ∧
  (∀ A B C tree h',
     chain3 A B C h = Some (tree, h') →
     ∃ out, TreeOps.bigrams 3 h' tree None = Some out ∧
            (list_to_set out : gset (string * string)) = {[ (A, B); (B, C) ]}).
Proof.
  split.
  - intros t Ht self.
    destruct (bigrams_total _ _ self _ _ Ht) as [out Hout].
    exists out. split_and!.
    + unfold self. by rewrite bigrams_head.
    + intros p c np nc Hr Hp Hc Hnc. by eapply bigrams_covers.
    + intros e He. by eapply bigrams_sound.
  - intros A B C tree h'. rewrite chain3_eq. intros [= <- <-].
    exists [(B, C); (A, B)]. split; [apply bigrams_chain3|].
    simpl. set_solver.
Qed.

Lemma bigrams_postorder_witness :
  ∃ out,
    TreeOps.bigrams 3 (chain3_nodes "A" "B" "C" 0) (mkTree (Some 0)) None
      = Some out ∧
    ∃ pre post, out = pre ++ [] ++ ("B", "C") :: post.
Proof.
  destruct (proj1 (bigrams_postorder 3 (chain3_nodes "A" "B" "C" 0) 0)
              (Rose "A" [Rose "B" [Rose "C" []]]) eq_refl)
    as (out & Hout & Hcov & _).
  exists out. split; [exact Hout|].
  destruct (Hcov 1 2 (mkNode "B" {[ "C" ]} [2]) (mkNode "C" ∅ []))
    as (outc & pre & post & Hc & ->).
  - eapply reach_step; [reflexivity|by left|]. apply reach_refl. by eexists.
  - reflexivity.
  - by left.
  - reflexivity.
  - vm_compute in Hc. injection Hc as <-. by exists pre, post.
Defined.

(** ** Node *)

(** C6: [add_child] is idempotent.  On a node that satisfies the
    invariant of [Node], two calls with the same name return the same
    child, and the second call leaves the heap as it is: the lists
    [children] and [children_names] of the node do not change, and the
    node has one child of that name. *)
Theorem add_child_idempotent h self n nm :
  h !! self = Some n → node_ok h n →
  ∃ c h1 n1,
    add_child self nm h = Some (Some c, h1) ∧
    add_child self nm h1 = Some (Some c, h1) ∧
    h1 !! self = Some n1 ∧ node_ok h1 n1 ∧
    c ∈ children n1 ∧ name <$> h1 !! c = Some nm.
Proof.
  intros Hn Hok.
  assert (Hlt : self < length h) by by eapply lookup_lt_Some.
  destruct (decide (nm ∈ children_names n)) as [Hin|Hin].
  - destruct (find_child _ _ _ Hok Hin) as (c & nc & Hf & Hc & Hnc & Hname).
    exists c, h, n. rewrite (add_child_old _ _ _ _ Hn Hin), Hf.
    split_and!; try done. by rewrite Hnc; simpl; rewrite Hname.
  - set (n1 := mkNode (name n) ({[nm]} ∪ children_names n)
                 (children n ++ [length h])).
    set (h1 := <[self := n1]> (h ++ [mkNode nm ∅ []])).
    assert (H1 : h1 !! self = Some n1).
    { apply list_lookup_insert_eq. rewrite length_app. lia. }
    assert (Hc : h1 !! length h = Some (mkNode nm ∅ [])).
    { unfold h1. rewrite list_lookup_insert_ne by lia.
      by rewrite lookup_app_r, Nat.sub_diag by lia. }
    exists (length h), h1, n1. split_and!.
    + by apply add_child_new.
    + rewrite (add_child_old _ _ _ n1 H1) by set_solver. f_equal. f_equal.
      destruct Hok as (nms & Hnms & _ & Hs). unfold n1. simpl.
      rewrite (find_skip h1 nm (children n) nms).
      * simpl. unfold has_name. simpl. rewrite Hc. simpl.
        by rewrite bool_decide_eq_true_2.
      * apply mapM_Some.
        eapply (child_names_keep h h1 n); [|done].
        by apply keeps_names_add_child.
      * intros Hx. apply Hin. rewrite Hs. by apply elem_of_list_to_set.
    + done.
    + by apply node_ok_add_child.
    + unfold n1. simpl. apply elem_of_app. right. by left.
    + by rewrite Hc.
Qed.

Lemma add_child_idempotent_witness :
  ∃ c h1,
    add_child 0 "b" [mkNode "a" ∅ []] = Some (Some c, h1) ∧
    add_child 0 "b" h1 = Some (Some c, h1).
Proof.
  destruct (add_child_idempotent [mkNode "a" ∅ []] 0 (mkNode "a" ∅ []) "b")
    as (c & h1 & n1 & H1 & H2 & _).
  - reflexivity.
  - exists []. split_and!; [reflexivity|constructor|reflexivity].
  - by exists c, h1.
Defined.

(** What the invariant says of one node, in terms of its lists. *)
Lemma node_ok_spec h n :
  node_ok h n →
  (∀ (i j : nat) (ci cj : loc) ni nj,
     children n !! i = Some ci → children n !! j = Some cj →
     h !! ci = Some ni → h !! cj = Some nj →
     name ni = name nj → i = j) ∧
  (∀ x, x ∈ children_names n ↔
        ∃ (c : loc) nc, c ∈ children n ∧ h !! c = Some nc ∧ name nc = x).
Proof.
  intros (nms & Hc & Hnd & Hs). unfold child_names in Hc.
  apply mapM_Some in Hc. split.
  - intros i j ci cj ni nj Hi Hj Hni Hnj Heq.
    destruct (Forall2_lookup_l _ _ _ _ _ Hc Hi) as (x & Hx & Hxi).
    destruct (Forall2_lookup_l _ _ _ _ _ Hc Hj) as (y & Hy & Hyj).
    rewrite Hni in Hxi. rewrite Hnj in Hyj. simplify_eq/=.
    eapply NoDup_lookup; [done..|]. by rewrite Heq.
  - intros x. rewrite Hs, elem_of_list_to_set, list_elem_of_lookup. split.
    + intros [i Hi].
      destruct (Forall2_lookup_r _ _ _ _ _ Hc Hi) as (c & Hci & Hx).
      destruct (h !! c) as [nc|] eqn:Hnc; simplify_eq/=.
      exists c, nc. split_and!; [by eapply list_elem_of_lookup_2|done|done].
    + intros (c & nc & [i Hi]%list_elem_of_lookup & Hnc & <-).
      destruct (Forall2_lookup_l _ _ _ _ _ Hc Hi) as (x & Hx & Hxi).
      rewrite Hnc in Hxi. simplify_eq/=. by exists i.
Qed.

Lemma build_ok query fuel domain h σ evs σ' :
  heap_ok h →
  Resolver.__call__ query fuel domain None σ = Some (evs, σ') →
  ∃ tree h', TreeBuilder.build query fuel domain [] h σ =
             Some ((Some tree, [], h'), σ') ∧ heap_ok h'.
Proof.
  intros Hh Hr. unfold TreeBuilder.build. rewrite Hr. simpl.
  apply call_root in Hr as (t & _ & He & _). simpl in He. subst evs.
  destruct (consume_walk t [] None [] h Hh) as (c & h' & Hc & Hh' & _);
    [constructor|].
  rewrite app_nil_r in Hc. rewrite Hc. simpl.
  by exists (mkTree (Some c)), h'.
Qed.

(** C7: every node satisfies the invariant of [Node], that no two
    entries of [children] share a name and that [children_names] is the
    set of the names of the nodes of [children]: it holds of a heap
    without nodes, and the construction of a node, [add_child] and the
    whole of [build], which does not fail on the events of the resolver,
    preserve it. *)
Theorem node_invariant_preserved :
  (∀ h n, node_ok h n →
     (∀ (i j : nat) (ci cj : loc) ni nj,
        children n !! i = Some ci → children n !! j = Some cj →
        h !! ci = Some ni → h !! cj = Some nj →
        name ni = name nj → i = j) ∧
     (∀ x, x ∈ children_names n ↔
           ∃ (c : loc) nc, c ∈ children n ∧ h !! c = Some nc ∧ name nc = x)) ∧
  heap_ok [] ∧
  (∀ nm h, heap_ok h →
     heap_ok (Node_init nm h).2 ∧
     ∃ n, (Node_init nm h).2 !! (Node_init nm h).1 = Some n ∧
          node_ok (Node_init nm h).2 n) ∧
  (∀ self nm h, heap_ok h → is_Some (h !! self) →
     ∃ c h', add_child self nm h = Some (Some c, h') ∧ heap_ok h') ∧
  (∀ query fuel domain h σ evs σ',
     heap_ok h →
     Resolver.__call__ query fuel domain None σ = Some (evs, σ') →
     ∃ tree h', TreeBuilder.build query fuel domain [] h σ =
                Some ((Some tree, [], h'), σ') ∧ heap_ok h').
Proof.
  split_and!.
  - apply node_ok_spec.
  - by intros l n.
  - intros nm h Hh. split; [by apply heap_ok_init|].
    exists (mkNode nm ∅ []). simpl. split; [|apply node_ok_init].
    by rewrite lookup_app_r, Nat.sub_diag by lia.
  - intros self nm h Hh Hs.
    destruct (add_child_ok self nm h Hh Hs) as (c & h' & ? & ? & _).
    by exists c, h'.
  - intros query fuel domain h σ evs σ'. apply build_ok.
Qed.

Lemma node_invariant_preserved_witness :
  ∃ tree h',
    TreeBuilder.build cycle_query 3 "a.test" [] [] [] =
      Some ((Some tree, [], h'), [{[ "a.test"; "b.test" ]}]) ∧
    heap_ok h'.
Proof.
  apply (proj2 (proj2 (proj2 (proj2 node_invariant_preserved)))
           cycle_query 3 "a.test" [] []
           [(enter, "a.test"); (enter, "b.test");
            (exit, "b.test"); (exit, "a.test")]).
  - by intros l n.
  - vm_compute. reflexivity.
Defined.

(** ** Serialization *)

Lemma each_valid_all h fuel : each_valid h fuel.
Proof.
  induction fuel as [|fuel IH]; intros self visited node σ rs σ' Hr; [done|].
  rewrite each_node_body in Hr.
  destruct (bind_visited visited σ) as [[v σ0]|]; simpl in Hr; [|done].
  unfold each_body in Hr.
  destruct (TreeOps.or_head self node) as [l|]; simpl in Hr; [|done].
  destruct (h !! l) as [nd|] eqn:Hl; simpl in Hr; [|done].
  destruct (σ0 !! v) as [s|]; simpl in Hr; [|done].
  case_decide; [by injection Hr as <- <-|].
  destruct (TreeOps.each_node_loop _ _ _ _) as [[rs1 σ1]|] eqn:Hloop;
    simpl in Hr; [|done].
  injection Hr as <- <-. constructor; [by eexists|].
  clear Hl. revert Hloop. generalize (<[v:={[name nd]} ∪ s]> σ0).
  revert rs1 σ1. induction (children nd) as [|c cs IHcs]; intros rs1 σ1 σ2 Hloop;
    simpl in Hloop.
  - by injection Hloop as <- <-.
  - destruct (TreeOps.each_node fuel h self (Some v) (Some c) σ2)
      as [[r1 σ3]|] eqn:H1; simpl in Hloop; [|done].
    destruct (TreeOps.each_node_loop _ _ cs σ3) as [[r2 σ4]|] eqn:H2;
      simpl in Hloop; [|done].
    injection Hloop as <- <-. apply Forall_app. split; [by eapply IH|by eapply IHcs].
Qed.

Lemma to_obj_record h l n :
  h !! l = Some n → record_of h l (to_obj n).
Proof.
  intros Hl. exists n. unfold to_obj. simpl.
  assert (Hel : ∀ x, x ∈ elements (children_names n) ↔ x ∈ children_names n)
    by (intros x; apply elem_of_elements).
  split_and!; [done|done|apply NoDup_elements|done|].
  intros Hok x. rewrite Hel. by apply node_ok_spec.
Qed.

Lemma to_json_chain3 A B C h σ :
  A ≠ B → B ≠ C → A ≠ C →
  TreeOps.to_json 3 (h ++ chain3_nodes A B C (length h))
    (mkTree (Some (length h))) σ =
  Some ([mkObj A [B]; mkObj B [C]; mkObj C []], σ ++ [{[A; B; C]}]).
Proof.
  intros HAB HBC HAC. unfold TreeOps.to_json.
  rewrite (each_node_root _ (length h) (Rose A [Rose B [Rose C []]]));
    [|simpl; lia| |].
  - destruct (chain3_lookup A B C h) as (Ha & Hb & Hc).
    simpl. rewrite Ha, Hb, Hc. simpl. unfold to_obj. simpl.
    rewrite !elements_singleton, elements_empty.
    assert ({[A]} ∪ ({[B]} ∪ ({[C]} ∪ ∅)) = ({[A; B; C]} : gset string)) as ->
      by set_solver.
    done.
  - replace (layout (length h) (Rose A [Rose B [Rose C []]]))
      with (chain3_nodes A B C (length h)); [apply sits_end|].
    unfold chain3_nodes. simpl. rewrite !(right_id_L ∅ (∪)).
    by rewrite ?Nat.add_1_r.
  - simpl. repeat constructor; set_solver.
Qed.

(** C8: [to_json] produces, for every node that [each_node] yields, in
    that order, a record of the name of the node and of the names of its
    immediate children, each once; it returns whenever [each_node] does.
    For the chain [A -> B -> C] of three names it produces the three
    records of [A] with [B], of [B] with [C] and of [C] without
    children. *)
Theorem to_json_records :
  (∀ fuel h self σ ns σ',
     TreeOps.each_node fuel h self None None σ = Some (ns, σ') →
     ∃ objs, TreeOps.to_json fuel h self σ = Some (objs, σ') ∧
             Forall2 (record_of h) ns objs) ∧
  (∀ A B C h tree h' σ,
     A ≠ B → B ≠ C → A ≠ C →
     chain3 A B C h = Some (tree, h') →
     TreeOps.to_json 3 h' tree σ =
     Some ([mkObj A [B]; mkObj B [C]; mkObj C []], σ ++ [{[A; B; C]}])).
Proof.
  split.
  - intros fuel h self σ ns σ' Hr. unfold TreeOps.to_json. rewrite Hr. simpl.
    apply each_valid_all in Hr.
    induction Hr as [|l ns [n Hl] _ (objs & Hm & HF)]; simpl.
    + exists []. by split; [|constructor].
    + rewrite Hl. simpl.
      destruct (mapM _ ns) as [objs'|] eqn:Hobjs; simpl in Hm; [|done].
      injection Hm as <-. simpl. exists (to_obj n :: objs'). split; [done|].
      constructor; [by apply to_obj_record|done].
  - intros A B C h tree h' σ HAB HBC HAC. rewrite chain3_eq.
    intros [= <- <-]. by apply to_json_chain3.
Qed.

Lemma to_json_records_witness :
  TreeOps.to_json 3 (chain3_nodes "A" "B" "C" 0) (mkTree (Some 0)) [] =
  Some ([mkObj "A" ["B"]; mkObj "B" ["C"]; mkObj "C" []],
        [{[ "A"; "B"; "C" ]}]).
Proof.
  apply (proj2 to_json_records "A" "B" "C" []); [discriminate..|].
  vm_compute. reflexivity.
Defined.

(** ** The tree that [build] returns *)

(** [build] lays out, at the end of the heap, the tree that the
    resolver walked. *)
Lemma build_layout query fuel domain h σ evs σ' :
  Resolver.__call__ query fuel domain None σ = Some (evs, σ') →
  ∃ t, root t = domain ∧ NoDup (names t) ∧
       TreeBuilder.build query fuel domain [] h σ =
       Some ((Some (mkTree (Some (length h))), [],
              h ++ layout (length h) t), σ').
Proof.
  intros Hr. unfold TreeBuilder.build. rewrite Hr. simpl.
  apply call_root in Hr as (t & Ht & He & _ & Hnd & _). simpl in He. subst evs.
  exists t. split_and!; [done..|].
  pose proof (consume_root t [] None h (NoDup_names_siblings _ Hnd)) as Hc.
  rewrite app_nil_r in Hc. by rewrite Hc.
Qed.

Lemma sits_name h l t i n :
  sits h l (layout l t) → i < tsize t → h !! (l + i) = Some n →
  names t !! i = Some (name n).
Proof.
  intros Hs Hi Hn. destruct (sits_lookup _ _ _ _ Hs Hi) as (n' & Hn' & Hl).
  simplify_eq. by rewrite <-(layout_names l), list_lookup_fmap, Hl.
Qed.

(** The nodes of a laid out tree of distinct names have distinct
    names. *)
Lemma layout_distinct h l t l1 l2 n1 n2 :
  sits h l (layout l t) → NoDup (names t) →
  reach h l l1 → reach h l l2 →
  h !! l1 = Some n1 → h !! l2 = Some n2 → name n1 = name n2 → l1 = l2.
Proof.
  intros Hs Hnd Hr1 Hr2 H1 H2 Heq.
  pose proof (tsize t) as sz.
  assert (0 < tsize t) as Hpos by (destruct t; simpl; lia).
  apply (reach_layout_only _ _ _ _ _ Hs) in Hr1; [|lia].
  apply (reach_layout_only _ _ _ _ _ Hs) in Hr2; [|lia].
  replace l1 with (l + (l1 - l)) in H1 by lia.
  replace l2 with (l + (l2 - l)) in H2 by lia.
  apply (sits_name _ _ _ _ _ Hs) in H1; [|lia].
  apply (sits_name _ _ _ _ _ Hs) in H2; [|lia].
  rewrite Heq in H1.
  pose proof (NoDup_lookup _ _ _ _ Hnd H1 H2). lia.
Qed.

(** C9: in every tree that [build(domain)] returns the names of the
    nodes are distinct: the visited set is one set for the whole
    traversal, so that a domain is entered once and is a node once, below
    the first parent that reaches it.  [each_node] on such a tree yields
    every node, once.  [build] returns whenever the resolver does, which
    it does on a finite zone. *)
Theorem built_names_distinct query fuel domain h σ :
  (∀ evs σ',
     Resolver.__call__ query fuel domain None σ = Some (evs, σ') →
     ∃ (r : loc) h',
       TreeBuilder.build query fuel domain [] h σ =
         Some ((Some (mkTree (Some r)), [], h'), σ') ∧
       (∃ nr, h' !! r = Some nr ∧ name nr = domain) ∧
       (∀ (l1 l2 : loc) n1 n2,
          reach h' r l1 → reach h' r l2 →
          h' !! l1 = Some n1 → h' !! l2 = Some n2 →
          name n1 = name n2 → l1 = l2) ∧
       (∀ σ0, ∃ ns σ1,
          TreeOps.each_node (length h') h' (mkTree (Some r)) None None σ0 =
            Some (ns, σ1) ∧
          NoDup ns ∧ ∀ l, l ∈ ns ↔ reach h' r l)) ∧
  (∀ zone : gset string,
     (∀ d, d ∉ zone → include_terms query d = []) → size zone < fuel →
     is_Some (TreeBuilder.build query fuel domain [] h σ)).
Proof.
  split.
  - intros evs σ' Hr.
    destruct (build_layout _ _ _ h _ _ _ Hr) as (t & Ht & Hnd & Hb).
    pose proof (sits_end h (layout (length h) t)) as Hs.
    assert (0 < tsize t) as Hpos by (destruct t; simpl; lia).
    exists (length h), (h ++ layout (length h) t). split_and!.
    + done.
    + destruct (sits_lookup _ _ t 0 Hs Hpos) as (n & Hn & Hl).
      rewrite Nat.add_0_r in Hn. exists n. split; [done|].
      destruct t as [d ks]. rewrite layout_eq in Hl. simpl in *.
      by injection Hl as <-.
    + intros l1 l2 n1 n2. by apply (layout_distinct _ _ t).
    + intros σ0. eexists _, _. split_and!.
      * apply (each_node_root _ _ t); [|done..].
        rewrite length_app, length_layout. lia.
      * apply NoDup_seq.
      * intros l. rewrite elem_of_seq. split.
        -- intros Hl. replace l with (length h + (l - length h)) by lia.
           apply (reach_layout_all t); [done|lia].
        -- intros Hl. apply (reach_layout_only _ _ _ _ _ Hs) in Hl; lia.
  - intros zone Hz Hsz.
    destruct (call_terminates query zone Hz fuel domain σ Hsz) as [[evs σ'] Hr].
    destruct (build_layout _ _ _ h _ _ _ Hr) as (t & _ & _ & ->). by eexists.
Qed.

Lemma built_names_distinct_witness :
  ∃ ns σ1,
    TreeOps.each_node 4
      [mkNode "a.test" {[ "c.test"; "b.test" ]} [1; 3];
       mkNode "b.test" {[ "d.test" ]} [2];
       mkNode "d.test" ∅ [];
       mkNode "c.test" ∅ []]
      (mkTree (Some 0)) None None [] = Some (ns, σ1) ∧
    NoDup ns.
Proof.
  destruct (proj1 (built_names_distinct diamond_query 3 "a.test" [] [])
              [(enter, "a.test"); (enter, "b.test"); (enter, "d.test");
               (exit, "d.test"); (exit, "b.test"); (enter, "c.test");
               (exit, "c.test"); (exit, "a.test")]
              [{[ "a.test"; "b.test"; "d.test"; "c.test" ]}])
    as (r & h' & Hb & _ & _ & He).
  - vm_compute. reflexivity.
  - vm_compute in Hb. injection Hb as <- <-.
    destruct (He []) as (ns & σ1 & H1 & H2 & _). by exists ns, σ1.
Defined.

(** ** The [visited] argument *)

Lemma call_empty_None query fuel domain v σ :
  σ !! v = Some ∅ →
  Resolver.__call__ query fuel domain (Some v) σ =
  Resolver.__call__ query fuel domain None σ.
Proof.
  intros Hv. destruct fuel as [|fuel]; [done|].
  by rewrite (call_empty _ _ _ _ _ Hv), call_None.
Qed.

Lemma each_node_empty_None fuel h self node v σ :
  σ !! v = Some ∅ →
  TreeOps.each_node fuel h self (Some v) node σ =
  TreeOps.each_node fuel h self None node σ.
Proof.
  intros Hv. destruct fuel as [|fuel]; [done|].
  by rewrite (each_node_empty _ _ _ _ _ _ Hv), each_node_None.
Qed.

(** C10: an empty set given as [visited] is as good as no argument,
    for [resolve] and for [each_node]: the guard tests whether the set is
    true, so that the traversal works on a fresh set and leaves the set
    of the caller empty.  A set that is not empty is the one that the
    traversal works on: no set is allocated and the names entered are
    added to it. *)
Theorem empty_visited_is_fresh :
  (∀ query fuel domain σ (v : loc),
     σ !! v = Some ∅ →
     Resolver.__call__ query fuel domain (Some v) σ =
       Resolver.__call__ query fuel domain None σ ∧
     ∀ evs σ',
       Resolver.__call__ query fuel domain (Some v) σ = Some (evs, σ') →
       σ' !! v = Some ∅ ∧ length σ' = S (length σ)) ∧
  (∀ fuel h self node σ (v : loc),
     σ !! v = Some ∅ →
     TreeOps.each_node fuel h self (Some v) node σ =
       TreeOps.each_node fuel h self None node σ ∧
     ∀ ns σ',
       TreeOps.each_node fuel h self (Some v) node σ = Some (ns, σ') →
       σ' !! v = Some ∅ ∧ length σ' = S (length σ)) ∧
  (∀ query fuel domain σ (v : loc) s evs σ',
     σ !! v = Some s → s ≠ ∅ →
     Resolver.__call__ query fuel domain (Some v) σ = Some (evs, σ') →
     ∃ s' : gset string, σ' = <[v := s' ∪ s]> σ ∧ domain ∈ s' ∪ s) ∧
  (∀ fuel h self node σ (v : loc) s ns σ',
     σ !! v = Some s → s ≠ ∅ →
     TreeOps.each_node fuel h self (Some v) node σ = Some (ns, σ') →
     ∃ s' : gset string,
       σ' = <[v := s' ∪ s]> σ ∧
       ∀ l nd, TreeOps.or_head self node = Some l → h !! l = Some nd →
               name nd ∈ s' ∪ s).
Proof.
  split_and!.
  - intros query fuel domain σ v Hv. split; [by apply call_empty_None|].
    intros evs σ'. rewrite (call_empty_None _ _ _ _ _ Hv). intros Hr.
    apply call_root in Hr as (t & _ & _ & Hσ & _). simpl in Hσ. subst σ'.
    split.
    + by apply lookup_app_l_Some.
    + rewrite length_app. simpl. lia.
  - intros fuel h self node σ v Hv. split; [by apply each_node_empty_None|].
    intros ns σ'. rewrite (each_node_empty_None _ _ _ _ _ _ Hv).
    destruct fuel as [|fuel]; [done|]. rewrite each_node_None. intros Hr.
    eapply (each_body_ok _ _ _ (each_ok_all _ _) _ _ _ ∅) in Hr
      as (s' & Hσ & _); [|by apply list_lookup_middle].
    simpl in Hσ. subst σ'.
    assert (v < length σ) by by eapply lookup_lt_Some.
    split.
    + rewrite list_lookup_insert_ne by lia. by apply lookup_app_l_Some.
    + rewrite length_insert, length_app. simpl. lia.
  - intros query fuel domain σ v s evs σ' Hv Hs Hr.
    destruct fuel as [|fuel]; [done|].
    rewrite (call_Some _ _ _ _ _ _ Hv Hs) in Hr.
    pose proof (body_ok _ _ (call_ok_all _ _) _ _ _ _ _ Hv Hr) as H.
    case_decide as Hd.
    + injection H as _ <-. exists ∅. split; [|set_solver].
      by rewrite (left_id_L ∅ (∪)), list_insert_id.
    + destruct H as (t & Ht & _ & Hσ & _). simpl in Hσ.
      exists (list_to_set (names t)). split; [done|].
      apply elem_of_union_l, elem_of_list_to_set. rewrite <-Ht.
      apply root_in_names.
  - intros fuel h self node σ v s ns σ' Hv Hs Hr.
    destruct fuel as [|fuel]; [done|].
    rewrite (each_node_Some _ _ _ _ _ _ _ Hv Hs) in Hr.
    by apply (each_body_ok _ _ _ (each_ok_all _ _) _ _ _ _ _ Hv Hr).
Qed.

Lemma empty_visited_is_fresh_witness :
  Resolver.__call__ sample_query 3 "example.com" (Some 0) [∅] =
    Resolver.__call__ sample_query 3 "example.com" None [∅] ∧
  ∃ σ', snd <$> Resolver.__call__ sample_query 3 "example.com" (Some 0) [∅]
        = Some σ' ∧ σ' !! 0 = Some (∅ : gset string).
Proof.
  destruct (proj1 empty_visited_is_fresh sample_query 3 "example.com" [∅] 0
              eq_refl) as [Heq Hkeep].
  split; [exact Heq|].
  destruct (Resolver.__call__ sample_query 3 "example.com" (Some 0) [∅])
    as [[evs σ']|] eqn:Hr; [|vm_compute in Hr; discriminate].
  exists σ'. split; [done|]. by apply (Hkeep evs σ').
Defined.

(** * Further properties *)

(** ** [find] *)

(** X1: [find] returns the first element of the list that satisfies the
    predicate, and the default when no element does. *)
Theorem find_returns_first {A} (f : A → bool) (itr : list A) (default : A) :
  (∃ l1 l2, itr = l1 ++ find f itr default :: l2 ∧
            Forall (λ y, f y = false) l1 ∧ f (find f itr default) = true)
  ∨ (Forall (λ y, f y = false) itr ∧ find f itr default = default).
Proof.
  induction itr as [|y l IH]; simpl; [by right|].
  destruct (f y) eqn:Hy.
  - left. by exists [], l.
  - destruct IH as [(l1 & l2 & Hl & H1 & H2)|[H1 H2]].
    + left. exists (y :: l1), l2.
      split_and!; [by rewrite Hl at 1|by constructor|done].
    + right. split; [by constructor|done].
Qed.

(** ** The domains that the resolver enters *)

Lemma entered_app evs evs' : entered (evs ++ evs') = entered evs ++ entered evs'.
Proof. unfold entered. by rewrite filter_app, map_app. Qed.

Lemma exited_app evs evs' : exited (evs ++ evs') = exited evs ++ exited evs'.
Proof. unfold exited. by rewrite filter_app, map_app. Qed.

Lemma entered_fevents F :
  Forall (λ t, entered (events_of t) = names t) F →
  entered (fevents F) = fnames F.
Proof.
  induction 1 as [|k ks Hk _ IH]; simpl; [done|].
  by rewrite entered_app, Hk, IH.
Qed.

(** The [enter] events of a walk name the nodes of the tree, parents
    first. *)
Lemma entered_events_of t : entered (events_of t) = names t.
Proof.
  induction t as [d ks IH%entered_fevents] using rose_ind'. simpl.
  change ((enter, d) :: ?l) with ([(enter, d)] ++ l).
  by rewrite !entered_app, IH, app_nil_r.
Qed.

(** The [exit] events of a walk name the same nodes, children first. *)
Lemma exited_events_of t : exited (events_of t) ≡ₚ names t.
Proof.
  induction t as [d ks IH] using rose_ind'. simpl.
  change ((enter, d) :: ?l) with ([(enter, d)] ++ l).
  rewrite !exited_app.
  change (exited [(enter, d)]) with (@nil string).
  change (exited [(exit, d)]) with [d]. simpl.
  rewrite <-Permutation_cons_append. constructor.
  induction IH as [|k ks Hk _ IHks]; simpl; [done|].
  by rewrite exited_app, Hk, IHks.
Qed.

(** X2: the resolver enters no domain twice and leaves every domain it
    entered: the domains of the [exit] events are those of the [enter]
    events, the first of which is the domain asked for, and the set that
    the root call allocates ends as the set of the domains entered. *)
Theorem resolve_enters_once query fuel domain σ evs σ' :
  Resolver.__call__ query fuel domain None σ = Some (evs, σ') →
  NoDup (entered evs) ∧
  exited evs ≡ₚ entered evs ∧
  hd_error (entered evs) = Some domain ∧
  σ' = σ ++ [list_to_set (entered evs)].
Proof.
  intros Hr. apply call_root in Hr as (t & Ht & He & Hσ & Hnd & _).
  simpl in He, Hσ. subst evs σ'. rewrite entered_events_of.
  split_and!; [done|apply exited_events_of| |done].
  destruct t. simpl in *. by subst.
Qed.

Lemma resolve_enters_once_witness :
  NoDup (entered diamond_events) ∧
  exited diamond_events ≡ₚ entered diamond_events ∧
  hd_error (entered diamond_events) = Some "a.test" ∧
  diamond_visited = [] ++ [list_to_set (entered diamond_events)].
Proof.
  apply (resolve_enters_once diamond_query 3 "a.test" []
           diamond_events diamond_visited).
  vm_compute. reflexivity.
Defined.

(** ** The names that the resolver takes from a record *)

Lemma split_no_space s :
  Forall (λ w, ∀ c, c ∈ chars w → Str.isspace c = false) (Str.split s).
Proof.
  induction s as [|a s IH]; simpl; [constructor|].
  destruct (Str.isspace a) eqn:Ha; [done|].
  assert (∀ c, c ∈ chars (String a EmptyString) → Str.isspace c = false) as H1.
  { simpl. by intros c ->%list_elem_of_singleton. }
  destruct s as [|b s]; [by constructor|].
  destruct (Str.isspace b) eqn:Hb; [by constructor|].
  destruct (Str.split (String b s)) as [|w ws]; [by constructor|].
  apply Forall_cons in IH as [Hw Hws]. constructor; [|done].
  simpl. intros c [->|Hc]%elem_of_cons; [done|by apply Hw].
Qed.

Lemma chars_drop n s c : c ∈ chars (Str.drop n s) → c ∈ chars s.
Proof.
  revert s. induction n as [|n IH]; intros [|a s]; simpl; try done.
  intros Hc%IH. by right.
Qed.

Lemma chars_until sep s c :
  c ∈ chars (Str.until sep s) → c ∈ chars s ∧ c ≠ sep.
Proof.
  induction s as [|a s IH]; simpl; [by intros ?%elem_of_nil|].
  destruct (Ascii.eqb_spec a sep) as [->|Hne]; simpl; [by intros ?%elem_of_nil|].
  intros [->|[Hc Hs]%IH]%elem_of_cons; split; try done; [by left|by right].
Qed.

(** X3: a name that the resolver takes from an include term, and then
    looks up, holds no white space and no colon. *)
Theorem include_names_clean query domain nm c :
  nm ∈ include_names query domain → c ∈ chars nm →
  Str.isspace c = false ∧ c ≠ ":"%char.
Proof.
  unfold include_names. intros (record & Hrec & Hf)%list_elem_of_omap Hc.
  pose proof (include_terms_are_includes query domain) as Hinc.
  rewrite Forall_forall in Hinc. pose proof (Hinc _ Hrec) as Hi.
  unfold field1 in Hf. rewrite (StrFacts.include_field _ Hi) in Hf.
  injection Hf as <-. apply chars_until in Hc as [Hc Hne].
  apply (chars_drop 8 record) in Hc.
  split; [|done].
  unfold include_terms in Hrec. destruct (query domain) as [answer|];
    [|by apply elem_of_nil in Hrec].
  apply list_elem_of_filter in Hrec as [_ Hrec].
  pose proof (split_no_space
    (find Resolver.is_spf (map Resolver.to_text answer) "")) as Hsp.
  rewrite Forall_forall in Hsp. by apply (Hsp record).
Qed.

Lemma include_names_clean_witness :
  Str.isspace "g"%char = false ∧ "g"%char ≠ ":"%char.
Proof.
  apply (include_names_clean sample_query "example.com" "_spf.google.com").
  - vm_compute. by left.
  - vm_compute. do 5 right. by left.
Defined.

(** ** The builder on any event sequence *)

Lemma count_cons_same ty nm evs : count ty ((ty, nm) :: evs) = S (count ty evs).
Proof. unfold count. rewrite filter_cons_True by done. done. Qed.

Lemma count_cons_other ty ty' nm evs :
  ty' ≠ ty → count ty ((ty', nm) :: evs) = count ty evs.
Proof. intros H. unfold count. by rewrite filter_cons_False. Qed.

(** X4: on a sound heap and stack, the loop of [build] fails exactly on
    the event sequences that pop the empty stack: it returns if and only
    if no prefix of the events has more [exit] events than the stack has
    entries and the prefix has [enter] events. *)
Theorem consume_returns_iff evs tree stack h :
  heap_ok h → stack_ok h stack →
  is_Some (TreeBuilder.consume evs tree stack h) ↔
  ∀ n, count exit (take n evs) ≤ length stack + count enter (take n evs).
Proof.
  revert tree stack h. induction evs as [|[[] nm] evs IH];
    intros tree stack h Hh Hst.
  - split; [|done]. intros _ n. rewrite take_nil. unfold count. simpl. lia.
  - destruct (consume_enter nm evs tree stack h Hh Hst)
      as (c & h1 & -> & Hh1 & Hk1 & Hc1).
    rewrite IH; [|done|].
    2:{ constructor; [by exists c|by eapply stack_ok_keep]. }
    split.
    + intros H [|n]; [unfold count; simpl; lia|].
      simpl. rewrite count_cons_same, count_cons_other by done.
      specialize (H n). simpl in H. lia.
    + intros H n. specialize (H (S n)). simpl in H.
      rewrite count_cons_same, count_cons_other in H by done. simpl. lia.
  - destruct stack as [|top stack']; simpl.
    + split; [by intros [? ?]|]. intros H. specialize (H 1). simpl in H.
      rewrite take_0 in H. unfold count in H. simpl in H. lia.
    + apply Forall_cons in Hst as [_ Hst]. rewrite IH by done. split.
      * intros H [|n]; [unfold count; simpl; lia|].
        simpl. rewrite count_cons_same, count_cons_other by done.
        specialize (H n). lia.
      * intros H n. specialize (H (S n)). simpl in H.
        rewrite count_cons_same, count_cons_other in H by done. lia.
Qed.

Lemma consume_returns_iff_witness :
  is_Some (TreeBuilder.consume [(enter, "a"); (exit, "a"); (enter, "b")]
             None [] []) ∧
  ¬ is_Some (TreeBuilder.consume [(enter, "a"); (exit, "a"); (exit, "b")]
               None [] []).
Proof.
  assert (heap_ok []) as Hh by by intros l n.
  assert (stack_ok [] []) as Hst by constructor.
  split.
  - apply (proj2 (consume_returns_iff _ None [] [] Hh Hst)).
    intros [|[|[|[|n]]]]; vm_compute; lia.
  - intros H.
    pose proof (proj1 (consume_returns_iff _ None [] [] Hh Hst) H 3) as H3.
    vm_compute in H3. lia.
Defined.

(** ** [add_child] and the other nodes *)

(** X5: [add_child] changes no node but the one it is called on, keeps
    the name of that node and only appends to its [children]: the
    children that were there stay, in their order. *)
Theorem add_child_frame self nm h n r h' :
  h !! self = Some n →
  add_child self nm h = Some (r, h') →
  (∀ l : loc, l ≠ self → l < length h → h' !! l = h !! l) ∧
  ∃ n', h' !! self = Some n' ∧ name n' = name n ∧
        children n `prefix_of` children n' ∧
        children_names n ⊆ children_names n'.
Proof.
  intros Hn Hadd.
  assert (Hlt : self < length h) by by eapply lookup_lt_Some.
  destruct (decide (nm ∈ children_names n)) as [Hin|Hin].
  - rewrite (add_child_old _ _ _ _ Hn Hin) in Hadd. injection Hadd as _ <-.
    split; [done|]. by exists n.
  - rewrite (add_child_new _ _ _ _ Hn Hin) in Hadd. injection Hadd as _ <-.
    split.
    + intros l Hne Hl. rewrite list_lookup_insert_ne by done.
      by rewrite lookup_app_l.
    + eexists. split; [apply list_lookup_insert_eq; rewrite length_app; lia|].
      simpl. split_and!; [done|by apply prefix_app_r|set_solver].
Qed.

Lemma add_child_frame_witness :
  ∃ n', [mkNode "a" ({[ "b" ]} ∪ ∅) [1]; mkNode "b" ∅ []] !! 0 = Some n' ∧
        name n' = "a" ∧ [] `prefix_of` children n'.
Proof.
  destruct (add_child_frame 0 "b" [mkNode "a" ∅ []] (mkNode "a" ∅ [])
              (Some 1) [mkNode "a" ({[ "b" ]} ∪ ∅) [1]; mkNode "b" ∅ []])
    as [_ (n' & H1 & H2 & H3 & _)].
  - reflexivity.
  - vm_compute. reflexivity.
  - by exists n'.
Defined.

(** ** The operations on the tree that [build] returns *)

(** [build] lays out, at the end of the heap, the tree whose walk the
    events of the resolver are. *)
Lemma build_tree query fuel domain h σ evs σ' :
  Resolver.__call__ query fuel domain None σ = Some (evs, σ') →
  ∃ t, evs = events_of t ∧ root t = domain ∧ NoDup (names t) ∧
       follows query t ∧
       TreeBuilder.build query fuel domain [] h σ =
       Some ((Some (mkTree (Some (length h))), [],
              h ++ layout (length h) t), σ').
Proof.
  intros Hr. unfold TreeBuilder.build. rewrite Hr. simpl.
  apply call_root in Hr as (t & Ht & He & _ & Hnd & Hf). simpl in He. subst evs.
  exists t. split_and!; [done..|].
  pose proof (consume_root t [] None h (NoDup_names_siblings _ Hnd)) as Hc.
  rewrite app_nil_r in Hc. by rewrite Hc.
Qed.

(** X6: [build], on a fresh builder, changes no node of the heap it
    finds: it appends one node for every [enter] event, named after the
    domain of the event, in the order of the events, the first of them the
    head of the tree it returns, and leaves the stack empty. *)
Theorem build_appends query fuel domain h σ evs σ' :
  Resolver.__call__ query fuel domain None σ = Some (evs, σ') →
  ∃ new,
    TreeBuilder.build query fuel domain [] h σ =
      Some ((Some (mkTree (Some (length h))), [], h ++ new), σ') ∧
    map name new = entered evs.
Proof.
  intros Hr. destruct (build_tree _ _ _ h _ _ _ Hr) as (t & -> & _ & _ & _ & Hb).
  exists (layout (length h) t). split; [done|].
  by rewrite layout_names, entered_events_of.
Qed.

Lemma build_appends_witness :
  ∃ new,
    TreeBuilder.build diamond_query 3 "a.test" [] [mkNode "x" ∅ []] [] =
      Some ((Some (mkTree (Some (length [mkNode "x" ∅ []]))), [],
             [mkNode "x" ∅ []] ++ new), diamond_visited) ∧
    map name new = entered diamond_events.
Proof.
  apply (build_appends diamond_query 3 "a.test" [mkNode "x" ∅ []] []
           diamond_events diamond_visited).
  vm_compute. reflexivity.
Defined.












(** ** [digraph] *)



(** ** [each_node] on any heap *)

Lemma each_loop_spec h fuel self :
  each_spec h fuel →
  ∀ ns v σ s rs σ',
    σ !! v = Some s → s ≠ ∅ →
    TreeOps.each_node_loop (TreeOps.each_node fuel h self) v ns σ
      = Some (rs, σ') →
    ∃ nms, named h rs nms ∧ NoDup nms ∧ (∀ x, x ∈ nms → x ∉ s) ∧
           σ' = <[v := list_to_set nms ∪ s]> σ.
Proof.
  intros IH ns. induction ns as [|n ns IHns]; intros v σ s rs σ' Hv Hs Hr;
    simpl in Hr.
  - injection Hr as <- <-. exists []. split_and!; [constructor|constructor|set_solver|].
    simpl. by rewrite (left_id_L ∅ (∪)), list_insert_id.
  - destruct (TreeOps.each_node fuel h self (Some v) (Some n) σ)
      as [[r1 σ1]|] eqn:H1; simpl in Hr; [|done].
    destruct (TreeOps.each_node_loop _ v ns σ1) as [[r2 σ2]|] eqn:H2;
      simpl in Hr; [|done].
    injection Hr as <- <-.
    assert (Hlt : v < length σ) by by eapply lookup_lt_Some.
    apply (IH _ _ _ _ _ _ _ Hv Hs) in H1 as (nms1 & Hn1 & Hnd1 & Hf1 & ->).
    eapply IHns in H2 as (nms2 & Hn2 & Hnd2 & Hf2 & ->);
      [|by apply list_lookup_insert_eq|set_solver].
    exists (nms1 ++ nms2). split_and!.
    + by apply Forall2_app.
    + apply NoDup_app. split_and!; [done|set_solver|done].
    + set_solver.
    + rewrite list_insert_insert_eq, list_to_set_app_L. f_equal. set_solver.
Qed.

Lemma each_body_spec h fuel self :
  each_spec h fuel →
  ∀ v node σ s rs σ',
    σ !! v = Some s →
    each_body fuel h self v node σ = Some (rs, σ') →
    ∃ nms, named h rs nms ∧ NoDup nms ∧ (∀ x, x ∈ nms → x ∉ s) ∧
           σ' = <[v := list_to_set nms ∪ s]> σ.
Proof.
  intros IH v node σ s rs σ' Hv Hr. unfold each_body in Hr.
  destruct (TreeOps.or_head self node) as [l|]; simpl in Hr; [|done].
  destruct (h !! l) as [nd|] eqn:Hl; simpl in Hr; [|done].
  rewrite Hv in Hr. simpl in Hr.
  assert (Hlt : v < length σ) by by eapply lookup_lt_Some.
  case_decide as Hd.
  - injection Hr as <- <-. exists [].
    split_and!; [constructor|constructor|set_solver|].
    simpl. by rewrite (left_id_L ∅ (∪)), list_insert_id.
  - destruct (TreeOps.each_node_loop _ v _ _) as [[rs1 σ1]|] eqn:H1;
      simpl in Hr; [|done].
    injection Hr as <- <-.
    eapply each_loop_spec in H1 as (nms & Hn & Hnd & Hf & ->);
      [|done|by apply list_lookup_insert_eq|set_solver].
    exists (name nd :: nms). split_and!.
    + constructor; [by rewrite Hl|done].
    + apply NoDup_cons. split; [|done]. intros Hin%Hf. set_solver.
    + intros x [->|Hx%Hf]%elem_of_cons; [done|set_solver].
    + rewrite list_insert_insert_eq. f_equal. set_solver.
Qed.

Lemma each_spec_all h fuel : each_spec h fuel.
Proof.
  induction fuel as [|fuel IH]; intros self v node σ s rs σ' Hv Hs Hr; [done|].
  rewrite (each_node_Some _ _ _ _ _ _ _ Hv Hs) in Hr.
  by eapply each_body_spec.
Qed.

Lemma named_to_json h rs nms :
  named h rs nms →
  ∃ objs, mapM (λ n : loc, to_obj <$> h !! n) rs = Some objs ∧
          map obj_name objs = nms.
Proof.
  induction 1 as [|l x rs nms Hl _ (objs & Hm & Hn)]; [by exists []|].
  destruct (h !! l) as [n|] eqn:Hn'; [|done]. simpl in Hl. injection Hl as <-.
  exists (to_obj n :: objs). split; [|by rewrite <-Hn].
  apply mapM_Some. constructor; [by rewrite Hn'|by apply mapM_Some].
Qed.

(** X10: on any heap, [each_node()] yields nodes of pairwise distinct
    names, and leaves their names in the set that it allocated; given a
    set that is not empty, it yields no node whose name is in the set.
    The records of [to_json] have pairwise distinct names: a node whose
    name an earlier node has is left out. *)
Theorem each_node_distinct_names h fuel self :
  (∀ node σ rs σ',
     TreeOps.each_node fuel h self None node σ = Some (rs, σ') →
     ∃ nms, named h rs nms ∧ NoDup nms ∧ σ' = σ ++ [list_to_set nms]) ∧
  (∀ (v : loc) node σ s rs σ',
     σ !! v = Some s → s ≠ ∅ →
     TreeOps.each_node fuel h self (Some v) node σ = Some (rs, σ') →
     ∃ nms, named h rs nms ∧ NoDup nms ∧ (∀ x, x ∈ nms → x ∉ s) ∧
            σ' = <[v := list_to_set nms ∪ s]> σ) ∧
  (∀ σ objs σ',
     TreeOps.to_json fuel h self σ = Some (objs, σ') →
     NoDup (map obj_name objs)).
Proof.
  assert (Hroot : ∀ node σ rs σ',
     TreeOps.each_node fuel h self None node σ = Some (rs, σ') →
     ∃ nms, named h rs nms ∧ NoDup nms ∧ σ' = σ ++ [list_to_set nms]).
  { intros node σ rs σ' Hr. destruct fuel as [|fuel]; [done|].
    rewrite each_node_None in Hr.
    eapply (each_body_spec _ _ _ (each_spec_all _ _) _ _ _ ∅) in Hr
      as (nms & Hn & Hnd & _ & ->); [|by apply list_lookup_middle].
    exists nms. split_and!; [done..|].
    rewrite (right_id_L ∅ (∪)).
    by rewrite (insert_app_r_alt σ) by lia; rewrite Nat.sub_diag. }
  split_and!; [done| |].
  - intros v node σ s rs σ'. apply each_spec_all.
  - intros σ objs σ' Hj. unfold TreeOps.to_json in Hj.
    destruct (TreeOps.each_node fuel h self None None σ) as [[rs σ1]|] eqn:Hr;
      simpl in Hj; [|done].
    apply Hroot in Hr as (nms & Hn & Hnd & _).
    destruct (named_to_json _ _ _ Hn) as (objs' & Hm & <-).
    rewrite Hm in Hj. simpl in Hj. by injection Hj as <- _.
Qed.

Lemma each_node_distinct_names_witness :
  ∃ nms,
    named (chain3_nodes "A" "B" "A" 0) [0; 1] nms ∧ NoDup nms ∧
    ([list_to_set ["A"; "B"]] : sets) = [] ++ [list_to_set nms].
Proof.
  apply (proj1 (each_node_distinct_names (chain3_nodes "A" "B" "A" 0) 3
                  (mkTree (Some 0))) None [] [0; 1] [list_to_set ["A"; "B"]]).
  vm_compute. reflexivity.
Defined.

Lemma size_heap_names h : size (heap_names h) ≤ length h.
Proof.
  unfold heap_names. induction h as [|n h IH].
  - done.
  - simpl. rewrite size_union_alt, size_singleton.
    pose proof (subseteq_size (list_to_set (map name h) ∖ {[name n]})
                  (list_to_set (map name h) : gset string)) as Hle.
    assert (size (list_to_set (map name h) ∖ {[name n]} : gset string)
            ≤ size (list_to_set (map name h) : gset string)) by (apply Hle; set_solver).
    lia.
Qed.

Lemma name_in_heap_names h (l : loc) n : h !! l = Some n → name n ∈ heap_names h.
Proof.
  intros Hl. apply elem_of_list_to_set, list_elem_of_fmap.
  exists n. split; [done|]. by eapply list_elem_of_lookup_2.
Qed.

Lemma each_loop_total h fuel self :
  each_total h fuel →
  ∀ ns v σ s,
    Forall (λ c : loc, is_Some (h !! c)) ns →
    σ !! v = Some s → s ≠ ∅ → size (heap_names h ∖ s) < fuel →
    is_Some (TreeOps.each_node_loop (TreeOps.each_node fuel h self) v ns σ).
Proof.
  intros IH ns. induction ns as [|n ns IHns]; intros v σ s Hns Hv Hs Hsz;
    simpl; [done|].
  apply Forall_cons in Hns as [Hn Hns].
  destruct (IH self v (Some n) n σ s Hv Hs eq_refl Hn Hsz) as [[r1 σ1] H1].
  rewrite H1. simpl.
  apply (each_ok_all _ _ _ _ _ _ _ _ Hv Hs) in H1 as [s1 Hσ1].
  simpl in Hσ1. subst σ1.
  assert (Hlt : v < length σ) by by eapply lookup_lt_Some.
  edestruct (IHns v (<[v:=s1 ∪ s]> σ)) as [[r2 σ2] H2];
    [done|by apply list_lookup_insert_eq|set_solver| |by rewrite H2].
  eapply Nat.le_lt_trans; [|done]. apply subseteq_size. set_solver.
Qed.

Lemma each_body_total h fuel self :
  closed h → each_total h fuel →
  ∀ v node (l : loc) σ s,
    σ !! v = Some s →
    TreeOps.or_head self node = Some l → is_Some (h !! l) →
    size (heap_names h ∖ s) ≤ fuel →
    is_Some (each_body fuel h self v node σ).
Proof.
  intros Hcl IH v node l σ s Hv Hnode [nd Hl] Hsz.
  unfold each_body. rewrite Hnode. simpl. rewrite Hl. simpl. rewrite Hv. simpl.
  case_decide as Hd; [done|].
  assert (Hlt : v < length σ) by by eapply lookup_lt_Some.
  edestruct (each_loop_total _ _ self IH (children nd) v
               (<[v:={[name nd]} ∪ s]> σ)) as [[rs σ1] H1];
    [|by apply list_lookup_insert_eq|set_solver| |by rewrite H1].
  - apply Forall_forall. intros c Hc. by eapply Hcl.
  - eapply Nat.lt_le_trans; [|done]. apply subset_size.
    apply strict_spec_alt. split; [set_solver|].
    intros Heq. pose proof (name_in_heap_names _ _ _ Hl) as Hin.
    assert (name nd ∈ heap_names h ∖ s) as Hin' by set_solver.
    rewrite <-Heq in Hin'. set_solver.
Qed.

Lemma each_total_all h fuel : closed h → each_total h fuel.
Proof.
  intros Hcl. induction fuel as [|fuel IH];
    intros self v node l σ s Hv Hs Hnode Hl Hsz; [lia|].
  rewrite (each_node_Some _ _ _ _ _ _ _ Hv Hs).
  eapply each_body_total; [done..|lia].
Qed.

(** X11: [each_node()] returns on every heap whose child references
    are nodes, also on one where a node is its own descendant: the guard
    on the names bounds the depth of the recursion by the number of the
    names of the heap. *)
Theorem each_node_returns h (l : loc) σ :
  closed h → is_Some (h !! l) →
  is_Some (TreeOps.each_node (S (length h)) h (mkTree (Some l)) None None σ).
Proof.
  intros Hcl Hl. rewrite each_node_None.
  eapply (each_body_total _ _ _ Hcl (each_total_all _ _ Hcl) _ _ l _ ∅);
    [by apply list_lookup_middle|done|done|].
  rewrite (difference_empty_L (heap_names h)). apply size_heap_names.
Qed.

Lemma each_node_returns_witness :
  is_Some (TreeOps.each_node 3
             [mkNode "a" {[ "b" ]} [1]; mkNode "b" {[ "a" ]} [0]]
             (mkTree (Some 0)) None None []).
Proof.
  apply (each_node_returns [mkNode "a" {[ "b" ]} [1]; mkNode "b" {[ "a" ]} [0]]
           0 []).
  - intros [|[|l]] n c Hn Hc; simplify_eq/=.
    + apply list_elem_of_singleton in Hc as ->. by eexists.
    + apply list_elem_of_singleton in Hc as ->. by eexists.
  - by eexists.
Defined.

(** ** [bigrams] on a heap that is not a tree *)

Lemma bigrams_loop_None rec h nd ns (c : loc) :
  c ∈ ns → rec (Some c) = None → TreeOps.bigrams_loop rec h nd ns = None.
Proof.
  intros Hc Hrec. induction ns as [|n ns IH]; [by apply elem_of_nil in Hc|].
  simpl. apply elem_of_cons in Hc as [<-|Hc]; [by rewrite Hrec|].
  destruct (rec (Some n)); simpl; [|done].
  destruct (h !! n); simpl; [|done]. by rewrite (IH Hc).
Qed.

(** X12: [bigrams] has no guard against cycles: below a node that is
    its own descendant it returns with no fuel, where [each_node]
    returns. *)
Theorem bigrams_cycle_never h self fuel (l p c : loc) np :
  reach h l p → h !! p = Some np → c ∈ children np → reach h c p →
  TreeOps.bigrams fuel h self (Some l) = None.
Proof.
  intros Hr Hp Hc Hcp. revert l Hr.
  induction fuel as [|fuel IH]; intros l Hr; [done|].
  destruct Hr as [l _|l n c0 p' Hl Hc0 Hr].
  - rewrite (bigrams_step _ _ _ _ _ Hp).
    apply (bigrams_loop_None _ _ _ _ c); [done|]. by apply IH.
  - rewrite (bigrams_step _ _ _ _ _ Hl).
    apply (bigrams_loop_None _ _ _ _ c0); [done|]. by apply IH.
Qed.

Lemma bigrams_cycle_never_witness :
  TreeOps.bigrams 100 [mkNode "a" {[ "b" ]} [1]; mkNode "b" {[ "a" ]} [0]]
    (mkTree (Some 0)) (Some 0) = None.
Proof.
  apply (bigrams_cycle_never _ _ _ 0 0 1 (mkNode "a" {[ "b" ]} [1])).
  - apply reach_refl. by eexists.
  - reflexivity.
  - by left.
  - eapply reach_step; [reflexivity|by left|]. apply reach_refl. by eexists.
Defined.

(** ** The include terms that the resolver follows *)

Section closed_facts.

Variable query : string → option (list Resolver.rdata).

Lemma includes_closed fuel :
  call_closed query fuel →
  ∀ records v σ s r,
    σ !! v = Some s → s ≠ ∅ →
    Resolver.includes (Resolver.__call__ query fuel) records v σ = Some r →
    ∃ s' : gset string,
      r.2 = <[v := s']> σ ∧ s ⊆ s' ∧
      (∀ nm, nm ∈ omap field1 records → nm ∈ s') ∧
      ∀ x, x ∈ s' → x ∉ s → ∀ y, y ∈ include_names query x → y ∈ s'.
Proof.
  intros IH records. induction records as [|record records IHr];
    intros v σ s r Hv Hs Hr; simpl in Hr.
  - injection Hr as <-. exists s. simpl.
    split_and!; [by rewrite list_insert_id|done|by intros ? ?%elem_of_nil|done].
  - fold (field1 record) in Hr. simpl.
    destruct (field1 record) as [nm|]; simpl in Hr; [|done].
    destruct (Resolver.__call__ query fuel nm (Some v) σ) as [[e1 σ1]|] eqn:H1;
      simpl in Hr; [|done].
    destruct (Resolver.includes _ records v σ1) as [[e2 σ2]|] eqn:H2;
      simpl in Hr; [|done].
    injection Hr as <-.
    assert (Hlt : v < length σ) by by eapply lookup_lt_Some.
    destruct (IH _ _ _ _ _ Hv Hs H1) as (s1 & Hσ1 & Hsub1 & Hnm & Hcl1).
    simpl in Hσ1. subst σ1.
    eapply IHr in H2 as (s2 & Hσ2 & Hsub2 & Hnms & Hcl2);
      [|by apply list_lookup_insert_eq|set_solver].
    simpl in Hσ2. subst σ2. exists s2. simpl. split_and!.
    + by rewrite list_insert_insert_eq.
    + set_solver.
    + intros x [->|Hx]%elem_of_cons; [set_solver|by apply Hnms].
    + intros x Hx Hxs y Hy. destruct (decide (x ∈ s1)) as [Hx1|Hx1].
      * apply Hsub2. by eapply Hcl1.
      * by eapply Hcl2.
Qed.

Lemma body_closed fuel :
  call_closed query fuel →
  ∀ domain v σ s r,
    σ !! v = Some s →
    body query fuel domain v σ = Some r →
    ∃ s' : gset string,
      r.2 = <[v := s']> σ ∧ s ⊆ s' ∧ domain ∈ s' ∧
      ∀ x, x ∈ s' → x ∉ s → ∀ y, y ∈ include_names query x → y ∈ s'.
Proof.
  intros IH domain v σ s r Hv Hr. unfold body in Hr. rewrite Hv in Hr.
  simpl in Hr. case_decide as Hd.
  - injection Hr as <-. exists s. simpl.
    split_and!; [by rewrite list_insert_id|done|done|done].
  - destruct (Resolver.includes _ _ v _) as [[evs σ1]|] eqn:Hi; simpl in Hr; [|done].
    injection Hr as <-.
    assert (Hlt : v < length σ) by by eapply lookup_lt_Some.
    eapply includes_closed in Hi as (s' & Hσ & Hsub & Hnms & Hcl);
      [|done|by apply list_lookup_insert_eq|set_solver].
    simpl in Hσ. subst σ1. exists s'. simpl. split_and!.
    + by rewrite list_insert_insert_eq.
    + set_solver.
    + set_solver.
    + intros x Hx Hxs y Hy. destruct (decide (x = domain)) as [->|Hne].
      * by apply Hnms.
      * eapply Hcl; [done|set_solver|done].
Qed.

Lemma call_closed_all fuel : call_closed query fuel.
Proof.
  induction fuel as [|fuel IH]; intros domain v σ s r Hv Hs Hr; [done|].
  rewrite (call_Some _ _ _ _ _ _ Hv Hs) in Hr. by eapply body_closed.
Qed.

End closed_facts.

(** X13: the traversal skips no include term: when the root call
    returns, every name that [__call__] takes from an include term of
    the record of an entered domain (the second field,
    [record.split(':')[1]], of a term of the rdata text, which is split
    with its quotes on) has been entered too. *)
Theorem resolve_enters_every_extracted_name query fuel domain σ evs σ' a b :
  Resolver.__call__ query fuel domain None σ = Some (evs, σ') →
  a ∈ entered evs → b ∈ include_names query a → b ∈ entered evs.
Proof.
  intros Hr Ha Hb.
  pose proof (call_root _ _ _ _ _ Hr) as (t & _ & He & Hσ & _).
  simpl in He, Hσ. subst evs. rewrite entered_events_of in *.
  destruct fuel as [|fuel]; [done|]. rewrite call_None in Hr.
  eapply (body_closed _ _ (call_closed_all _ _) _ _ _ ∅) in Hr
    as (s' & Hσ' & _ & _ & Hcl); [|by apply list_lookup_middle].
  simpl in Hσ'. rewrite Hσ in Hσ'.
  rewrite (insert_app_r_alt σ) in Hσ' by lia. rewrite Nat.sub_diag in Hσ'.
  simpl in Hσ'. apply app_inv_head in Hσ'. injection Hσ' as Hs'.
  subst s'.
  assert (b ∈ (list_to_set (names t) : gset string)) as Hin.
  { apply (Hcl a); [by apply elem_of_list_to_set|apply not_elem_of_empty|done]. }
  by apply elem_of_list_to_set in Hin.
Qed.

Lemma resolve_enters_every_extracted_name_witness :
  "d.test" ∈ entered diamond_events.
Proof.
  apply (resolve_enters_every_extracted_name diamond_query 3 "a.test" []
           diamond_events diamond_visited "c.test" "d.test").
  - vm_compute. reflexivity.
  - do 3 right. by left.
  - by left.
Defined.

(** ** [is_spf] and the quotes of a TXT string *)

Lemma append_cons a s s' : String a s +:+ s' = String a (s +:+ s').
Proof. reflexivity. Qed.

Lemma rstrip_append chars s a :
  Str.mem a chars = true →
  Str.rstrip chars (s +:+ String a EmptyString) = Str.rstrip chars s.
Proof.
  intros Ha. induction s as [|b s IH].
  - change (EmptyString +:+ String a EmptyString) with (String a EmptyString).
    simpl. by rewrite Ha.
  - rewrite append_cons. simpl. by rewrite IH.
Qed.

Lemma lstrip_append chars s a :
  Str.mem a chars = true →
  Str.lstrip chars (s +:+ String a EmptyString)
    = Str.lstrip chars s +:+ String a EmptyString
  ∨ (Str.lstrip chars s = EmptyString ∧
     Str.lstrip chars (s +:+ String a EmptyString) = EmptyString).
Proof.
  intros Ha. induction s as [|b s IH].
  - right. change (EmptyString +:+ String a EmptyString) with (String a EmptyString).
    simpl. by rewrite Ha.
  - rewrite append_cons. simpl. destruct (Str.mem b chars); [done|].
    left. by rewrite append_cons.
Qed.

(** X14: [is_spf] gives the same answer on a string and on the string
    between double quotes, the form in which [to_text] presents a TXT
    rdata: the quotes around the text do not count. *)
Theorem is_spf_ignores_quotes x :
  Str.strip (String Str.dquote EmptyString) (quoted x)
    = Str.strip (String Str.dquote EmptyString) x ∧
  Resolver.is_spf (quoted x) = Resolver.is_spf x.
Proof.
  assert (Str.strip (String Str.dquote EmptyString) (quoted x)
          = Str.strip (String Str.dquote EmptyString) x) as Hs.
  { unfold Str.strip, quoted.
    change (Str.lstrip (String Str.dquote EmptyString)
              (String Str.dquote (x +:+ String Str.dquote EmptyString)))
      with (Str.lstrip (String Str.dquote EmptyString)
              (x +:+ String Str.dquote EmptyString)).
    destruct (lstrip_append (String Str.dquote EmptyString) x Str.dquote eq_refl)
      as [->|[-> ->]]; [|done].
    by apply rstrip_append. }
  split; [done|]. unfold Resolver.is_spf. by rewrite Hs.
Qed.
